(** * build/build-report-components.js: the report template compiler

    A shallow embedding of the build script that turns the [<template>]
    elements of [report/assets/templates.html] into the source text of
    [report/renderer/components.js], followed by the properties of the
    script that the specification states.

    Conventions of the embedding:
    - a JavaScript string is the list of its UTF-16 code units;
    - the parsed DOM is an inductive tree whose nodes carry the properties
      the script reads ([namespaceURI], [localName], [tagName], [classList],
      the attribute list, [childNodes], [parentElement], [textContent]);
    - object identity of an element (the key of the script's [Map]) is a
      reference number carried by the element;
    - the two local mutable variables of [compileTemplate] ([elemToVarNames]
      and [lines]) are threaded explicitly as a [CompileState];
    - host functions whose result depends on the engine or on code outside
      this file ([toUpperCase], [localeCompare], [serializeArguments]) are
      the fields of the class [Host]. *)

From stdpp Require Import base option list strings gmap sorting pretty.
From Stdlib Require Import ZArith NArith Lia.

Set Warnings "-register-all".

Open Scope N_scope.
Open Scope list_scope.

(** ** JavaScript strings *)

Module JS.

(** A string value: its sequence of UTF-16 code units. *)
Abbreviation jsstring := (list N).

(** The code units of an ASCII literal of the script. *)
Fixpoint lit (s : string) : jsstring :=
  match s with
  | EmptyString => []
  | String c r => Stdlib.Strings.Ascii.N_of_ascii c :: lit r
  end.

(** The line feed character. *)
Definition LF : jsstring := [10].

(** [!str]: the empty string is the only falsy string. *)
Definition falsy (s : jsstring) : bool :=
  match s with [] => true | _ :: _ => false end.

Definition eqb (a b : jsstring) : bool := bool_decide (a = b).

(** [Array.prototype.join]. *)
Fixpoint join (sep : jsstring) (xs : list jsstring) : jsstring :=
  match xs with
  | [] => []
  | [x] => x
  | x :: rest => x ++ sep ++ join sep rest
  end.

(** [Array.prototype.includes] on an array of strings. *)
Definition includes (xs : list jsstring) (x : jsstring) : bool :=
  existsb (eqb x) xs.

(** The characters matched by [\s] in a regular expression, which are also
    the characters removed by [String.prototype.trim]: the WhiteSpace and
    LineTerminator productions of ECMAScript. *)
Definition isWhiteSpace (c : N) : bool :=
  (9 <=? c) && (c <=? 13)
  || (c =? 32) || (c =? 160) || (c =? 5760)
  || (8192 <=? c) && (c <=? 8202)
  || (c =? 8232) || (c =? 8233) || (c =? 8239) || (c =? 8287)
  || (c =? 12288) || (c =? 65279).

Fixpoint trimStart (s : jsstring) : jsstring :=
  match s with
  | [] => []
  | c :: r => if isWhiteSpace c then trimStart r else s
  end.

Definition trimEnd (s : jsstring) : jsstring := rev (trimStart (rev s)).

(** [String.prototype.trim]. *)
Definition trim (s : jsstring) : jsstring := trimEnd (trimStart s).

(** [str.replace(/\s+/g, ' ')]: scanning from the left, a maximal run of
    white space is matched as a whole and replaced by one space; any other
    character is copied.  [inRun] says that the previous character belongs to
    the run that has already been replaced. *)
Fixpoint replaceRuns (inRun : bool) (s : jsstring) : jsstring :=
  match s with
  | [] => []
  | c :: r =>
      if isWhiteSpace c
      then (if inRun then replaceRuns true r else 32 :: replaceRuns true r)
      else c :: replaceRuns false r
  end.

Definition replaceWhitespace (s : jsstring) : jsstring := replaceRuns false s.

(** [str.charAt(0)] and [str.substr(1)]. *)
Definition charAt0 (s : jsstring) : jsstring :=
  match s with [] => [] | c :: _ => [c] end.

Definition substr1 (s : jsstring) : jsstring :=
  match s with [] => [] | _ :: r => r end.

(** *** [JSON.stringify] on a string (QuoteJSONString) *)

Definition hexDigit (d : N) : N := if d <? 10 then 48 + d else 87 + d.

(** [\uXXXX] with four lower-case hexadecimal digits. *)
Definition unicodeEscape (c : N) : jsstring :=
  [92; 117; hexDigit (c / 4096 mod 16); hexDigit (c / 256 mod 16);
   hexDigit (c / 16 mod 16); hexDigit (c mod 16)].

Definition isLeadingSurrogate (c : N) : bool := (55296 <=? c) && (c <=? 56319).
Definition isTrailingSurrogate (c : N) : bool := (56320 <=? c) && (c <=? 57343).

(** The rendering of one code unit that is not part of a surrogate pair. *)
Definition quoteUnit (c : N) : jsstring :=
  if c =? 8 then [92; 98]
  else if c =? 9 then [92; 116]
  else if c =? 10 then [92; 110]
  else if c =? 12 then [92; 102]
  else if c =? 13 then [92; 114]
  else if c =? 34 then [92; 34]
  else if c =? 92 then [92; 92]
  else if (c <? 32) || isLeadingSurrogate c || isTrailingSurrogate c
       then unicodeEscape c
  else [c].

Fixpoint quoteUnits (s : jsstring) : jsstring :=
  match s with
  | [] => []
  | c :: r =>
      if isLeadingSurrogate c then
        match r with
        | d :: r' =>
            if isTrailingSurrogate d then c :: d :: quoteUnits r'
            else quoteUnit c ++ quoteUnits r
        | [] => quoteUnit c
        end
      else quoteUnit c ++ quoteUnits r
  end.

Definition JSON_stringify (s : jsstring) : jsstring :=
  34 :: quoteUnits s ++ [34].

(** ['v' + n] for a number [n]: the decimal digits of [n]. *)
Definition ofNat (n : nat) : jsstring := lit (pretty n).

End JS.

Import JS.

(** ** The parsed document *)

(** The properties of an element that [process] reads.  [ref] stands for the
    identity of the JavaScript object.  [classList] is the [DOMTokenList] of
    the element, given by the one thing the script asks of it, its
    serialization: the value of the [class] attribute as it is written, with
    its white space and its repeated tokens, and the empty string for an
    element without the attribute.  [attributes] is [None] for a node
    without a [getAttributeNames] method, and otherwise the attribute list in
    declaration order. *)
Record ElementProps := {
  ref : nat;
  namespaceURI : option jsstring;
  localName : jsstring;
  tagName : jsstring;
  classList : jsstring;
  attributes : option (list (jsstring * jsstring));
}.

(** A node of a template's content: an element with its [childNodes], a text
    node with the [tagName] of its [parentElement] ([None] when
    [parentElement] is null) and its [textContent], or a comment. *)
Inductive Node :=
| Element (el : ElementProps) (childNodes : list Node)
| Text (parentElement : option jsstring) (textContent : jsstring)
| Comment (data : jsstring).

(** A [<template>] element: its identity, its [id] attribute if it has one,
    and the child nodes of its [content] fragment. *)
Record TemplateElement := {
  tmplRef : nat;
  idAttribute : option jsstring;
  content : list Node;
}.

(** [el.id] reflects the attribute and is the empty string without one. *)
Definition id_of (tmpEl : TemplateElement) : jsstring :=
  default [] (idAttribute tmpEl).

Definition isElement (n : Node) : bool :=
  match n with Element _ _ => true | _ => false end.

(** [fragment.children]: the element children only. *)
Definition children (nodes : list Node) : list Node := List.filter isElement nodes.

(** [classList.toString()]: the serialization of the token list, which is
    the [class] attribute as written and not its tokens joined anew. *)
Definition classList_toString (el : ElementProps) : jsstring :=
  classList el.

(** [el.getAttributeNames()] and [el.getAttribute(name)]. *)
Definition getAttributeNames (attrs : list (jsstring * jsstring)) : list jsstring :=
  map fst attrs.

Fixpoint getAttribute (attrs : list (jsstring * jsstring)) (name : jsstring)
  : jsstring :=
  match attrs with
  | [] => lit "null"
  | (n, v) :: rest => if eqb n name then v else getAttribute rest name
  end.

(** [String.prototype.endsWith]. *)
Definition endsWith (s suffix : jsstring) : bool :=
  eqb (drop (length s - length suffix) s) suffix
  && (length suffix <=? length s)%nat.

(** ** Built-ins shared by the functions below *)

(** [Array.prototype.sort(compareFn)]: the stable sort, in which [a] stays
    before [b] unless [compareFn(a, b) > 0].  Written as insertion from the
    right end of the array. *)
Section Sort.
Context {A : Type} (compareFn : A -> A -> Z).

Fixpoint sortInsert (a : A) (sorted : list A) : list A :=
  match sorted with
  | [] => [a]
  | b :: rest =>
      if (compareFn a b <=? 0)%Z then a :: sorted else b :: sortInsert a rest
  end.

Fixpoint Array_sort (xs : list A) : list A :=
  match xs with
  | [] => []
  | a :: rest => sortInsert a (Array_sort rest)
  end.
End Sort.

(** How a run ends: normally with a value, or with a thrown error. *)
Inductive Completion (A : Type) :=
| Normal (value : A)
| Throw (message : jsstring).
Arguments Normal {A} value.
Arguments Throw {A} message.

(** ** Host functions *)

(** [toUpperCase] and [localeCompare] are the engine's (Unicode case mapping
    and locale collation); [serializeArguments] is imported from
    [lighthouse-core/gather/driver/execution-context.js]. *)
Class Host := {
  toUpperCase : jsstring -> jsstring;
  localeCompare : jsstring -> jsstring -> Z;
  serializeArguments : list jsstring -> jsstring;
}.

(** ** compileTemplate *)

(** The local variables [elemToVarNames] and [lines] of [compileTemplate]. *)
Record CompileState := {
  elemToVarNames : gmap nat jsstring;
  lines : list jsstring;
}.

Definition pushLine (l : jsstring) (st : CompileState) : CompileState :=
  {| elemToVarNames := elemToVarNames st; lines := lines st ++ [l] |}.

(** [elemToVarNames.get(el) || ('v' + elemToVarNames.size)], then
    [elemToVarNames.set(el, varName)]. *)
Definition makeOrGetVarName (el : nat) (st : CompileState)
  : jsstring * CompileState :=
  let varName :=
    match elemToVarNames st !! el with
    | Some name => if falsy name
                   then lit "v" ++ ofNat (size (elemToVarNames st))
                   else name
    | None => lit "v" ++ ofNat (size (elemToVarNames st))
    end in
  (varName,
   {| elemToVarNames := <[el := varName]> (elemToVarNames st);
      lines := lines st |}).

Section Process.
Context `{Host}.

(** Lines 58-71: the creation function and its arguments. *)
Definition isSvg (el : ElementProps) : bool :=
  match namespaceURI el with
  | Some uri => negb (falsy uri) && endsWith uri (lit "/svg")
  | None => false
  end.

Definition effectiveNamespaceURI (el : ElementProps) : jsstring :=
  if isSvg el then default [] (namespaceURI el) else [].

Definition createElementFnName (el : ElementProps) : jsstring :=
  if falsy (effectiveNamespaceURI el)
  then lit "createElement" else lit "createElementNS".

Definition createArgs (el : ElementProps) : list jsstring :=
  let className := classList_toString el in
  let args := [localName el] in
  let args := if falsy className then args else args ++ [className] in
  if falsy (effectiveNamespaceURI el) then args
  else effectiveNamespaceURI el :: args.

Definition createStatement (varName : jsstring) (el : ElementProps) : jsstring :=
  lit "const " ++ varName ++ lit " = dom." ++ createElementFnName el
  ++ lit "(" ++ serializeArguments (createArgs el) ++ lit ");".

(** Lines 76-82: one statement per attribute name other than [class]. *)
Definition setAttributeStatement (varName attr value : jsstring) : jsstring :=
  varName ++ lit ".setAttribute('" ++ attr ++ lit "', '" ++ value ++ lit "');".

Definition attributeNamesToSet (el : ElementProps) : list jsstring :=
  match attributes el with
  | Some attrs =>
      List.filter (fun attr => negb (eqb attr (lit "class")))
                  (getAttributeNames attrs)
  | None => []
  end.

Definition setAttributeStatements (varName : jsstring) (el : ElementProps)
  : list jsstring :=
  map (fun attr =>
         setAttributeStatement varName attr
           (getAttribute (default [] (attributes el)) attr))
      (attributeNamesToSet el).

(** Lines 99-108. *)
Definition siblingElement (sibling : option Node) : option ElementProps :=
  match sibling with
  | Some (Element el _) => Some el
  | _ => None
  end.

Definition allowJustWhitespace (previousSibling nextSibling : option Node) : bool :=
  match siblingElement previousSibling, siblingElement nextSibling with
  | Some previousSiblingElement, Some nextSiblingElement =>
      eqb (tagName previousSiblingElement) (lit "SPAN")
      || eqb (tagName nextSiblingElement) (lit "SPAN")
  | _, _ => false
  end.

(** Lines 90-121 for one text node: [None] where the loop body reaches a
    [continue] without pushing, otherwise the pushed literal. *)
Definition textLiteral (previousSibling nextSibling : option Node)
    (parentElement : option jsstring) (textContent : jsstring)
  : option jsstring :=
  match parentElement with
  | None => None
  | Some parentTagName =>
      if falsy textContent then None
      else if negb (allowJustWhitespace previousSibling nextSibling)
              && falsy (trim textContent)
      then None
      else
        let textContent :=
          if negb (includes [lit "PRE"; lit "STYLE"] parentTagName)
          then replaceWhitespace textContent
          else textContent in
        Some (JSON_stringify textContent)
  end.

(** The body of the loop over [el.childNodes] (lines 86-130) for one child,
    given its two siblings; [proc] is [process] itself. *)
Section Walk.
Variable proc : Node -> CompileState -> CompileState.

Definition visitChild (previousSibling : option Node) (childNode : Node)
    (nextSibling : option Node) (acc : list jsstring * CompileState)
  : list jsstring * CompileState :=
  let '(childNodesToAppend, st) := acc in
  match childNode with
  | Comment _ => (childNodesToAppend, st)
  | Text parentElement textContent =>
      match textLiteral previousSibling nextSibling parentElement textContent with
      | Some textContent => (childNodesToAppend ++ [textContent], st)
      | None => (childNodesToAppend, st)
      end
  | Element el _ =>
      let st := proc childNode st in
      match elemToVarNames st !! ref el with
      | Some childVarName =>
          if falsy childVarName then (childNodesToAppend, st)
          else (childNodesToAppend ++ [childVarName], st)
      | None => (childNodesToAppend, st)
      end
  end.

(** The loop over a segment [nodes] of the child list that lies between the
    siblings [previousSibling] and [lastNextSibling]. *)
Fixpoint walkChildNodes (previousSibling : option Node) (nodes : list Node)
    (lastNextSibling : option Node) (acc : list jsstring * CompileState)
  : list jsstring * CompileState :=
  match nodes with
  | [] => acc
  | childNode :: rest =>
      let nextSibling :=
        match rest with n :: _ => Some n | [] => lastNextSibling end in
      walkChildNodes (Some childNode) rest lastNextSibling
        (visitChild previousSibling childNode nextSibling acc)
  end.
End Walk.

(** [process(el)], lines 57-135.  It is only ever applied to elements. *)
Fixpoint process (node : Node) (st : CompileState) : CompileState :=
  match node with
  | Element el childNodes =>
      let '(varName, st) := makeOrGetVarName (ref el) st in
      let st := pushLine (createStatement varName el) st in
      let st := fold_left (fun st l => pushLine l st)
                          (setAttributeStatements varName el) st in
      let '(childNodesToAppend, st) :=
        walkChildNodes process None childNodes None ([], st) in
      match childNodesToAppend with
      | [] => st
      | _ :: _ =>
          pushLine (varName ++ lit ".append("
                    ++ join (lit ",") childNodesToAppend ++ lit ");") st
      end
  | _ => st
  end.

(** [upperFirst] and [createFunctionCode], lines 22-35. *)
Definition upperFirst (str : jsstring) : jsstring :=
  toUpperCase (charAt0 str) ++ substr1 str.

Definition createFunctionCode (functionName : jsstring)
    (bodyLines parameterNames : list jsstring) : jsstring :=
  let body := join LF (map (fun l => lit "  " ++ l) bodyLines) in
  lit "function " ++ functionName ++ lit "("
  ++ join (lit ", ") parameterNames ++ lit ") {" ++ LF
  ++ body ++ LF ++ lit "}".

(** The statements of [compileTemplate], lines 137-145, with the final state
    of its local variables. *)
Definition compileTopLevel (fragmentVarName : jsstring) (st : CompileState)
    (topLevelEl : Node) : CompileState :=
  let st := process topLevelEl st in
  match topLevelEl with
  | Element el _ =>
      let '(name, st) := makeOrGetVarName (ref el) st in
      pushLine (fragmentVarName ++ lit ".append(" ++ name ++ lit ");") st
  | _ => st
  end.

Definition compileBody (tmpEl : TemplateElement) : CompileState :=
  let '(fragmentVarName, st) :=
    makeOrGetVarName (tmplRef tmpEl) {| elemToVarNames := ∅; lines := [] |} in
  let st := pushLine (lit "const " ++ fragmentVarName
                      ++ lit " = dom.document().createDocumentFragment();") st in
  let st := fold_left (compileTopLevel fragmentVarName)
                      (children (content tmpEl)) st in
  pushLine (lit "return " ++ fragmentVarName ++ lit ";") st.

Record ProcessedTemplate := {
  tmpEl : TemplateElement;
  componentName : jsstring;
  functionName : jsstring;
  functionCode : jsstring;
}.

Definition functionNameOf (componentName : jsstring) : jsstring :=
  lit "create" ++ upperFirst componentName ++ lit "Component".

Definition templateJsdoc : jsstring :=
  LF ++ lit "/**" ++ LF ++ lit " * @param {DOM} dom" ++ LF ++ lit " */".

Definition compileTemplate (tmpEl : TemplateElement) : ProcessedTemplate :=
  let lines := lines (compileBody tmpEl) in
  let componentName := id_of tmpEl in
  let functionName := functionNameOf componentName in
  {| tmpEl := tmpEl;
     componentName := componentName;
     functionName := functionName;
     functionCode := templateJsdoc ++ LF
                     ++ createFunctionCode functionName lines [lit "dom"] |}.

(** ** makeGenericCreateComponentFunctionCode *)

(** The [case] lines of the generated [switch]: one per processed template,
    with its [componentName] as label and its [functionName] as callee. *)
Definition caseLine (t : ProcessedTemplate) : jsstring :=
  lit "  case '" ++ componentName t ++ lit "': return "
  ++ functionName t ++ lit "(dom);".

Definition dispatcherLines (processedTemplates : list ProcessedTemplate)
  : list jsstring :=
  [lit "switch (componentName) {"]
  ++ map caseLine processedTemplates
  ++ [lit "}"]
  ++ [lit "throw new Error('unexpected component: ' + componentName)"].

Definition makeGenericCreateComponentFunctionCode
    (processedTemplates : list ProcessedTemplate) : jsstring :=
  let paramType :=
    join (lit "|")
         (map (fun t => lit "'" ++ componentName t ++ lit "'") processedTemplates) in
  let jsdoc :=
    LF ++ lit "/** @typedef {" ++ paramType ++ lit "} ComponentName */" ++ LF
    ++ lit "/**" ++ LF
    ++ lit " * @param {DOM} dom" ++ LF
    ++ lit " * @param {ComponentName} componentName" ++ LF
    ++ lit " * @return {DocumentFragment}" ++ LF
    ++ lit " */" in
  jsdoc ++ LF ++ lit "export "
  ++ createFunctionCode (lit "createComponent")
       (dispatcherLines processedTemplates) [lit "dom"; lit "componentName"].

(** ** main *)

Definition sortedTemplates (tmplEls : list TemplateElement)
  : list ProcessedTemplate :=
  Array_sort (fun a b => localeCompare (componentName a) (componentName b))
             (map compileTemplate tmplEls).

(** The template literal of [main] before [.trim()]. *)
Definition codeTemplate (processedTemplates : list ProcessedTemplate) : jsstring :=
  LF ++ lit "    'use strict';" ++ LF
  ++ LF ++ lit "    // auto-generated by build/build-report-components.js" ++ LF
  ++ LF ++ lit "    /** @typedef {import('./dom.js').DOM} DOM */" ++ LF
  ++ LF ++ lit "    /* eslint-disable max-len */" ++ LF
  ++ LF ++ lit "    " ++ join LF (map functionCode processedTemplates) ++ LF
  ++ LF ++ lit "    " ++ makeGenericCreateComponentFunctionCode processedTemplates
  ++ LF ++ lit "  ".

(** [main()], applied to the [<template>] elements of the document in
    document order; its normal completion carries the text written to
    [report/renderer/components.js].  The script has no [throw] statement of
    its own, and reading and writing the files is outside the model. *)
Definition main (tmplEls : list TemplateElement) : Completion jsstring :=
  let processedTemplates := sortedTemplates tmplEls in
  Normal (trim (codeTemplate processedTemplates)).

End Process.

(** ** A host for examples *)

Module ExampleHost.

Definition upperUnit (c : N) : N :=
  if (97 <=? c) && (c <=? 122) then c - 32 else c.

(** Comparison of two strings code unit by code unit. *)
Fixpoint compareUnits (a b : jsstring) : Z :=
  match a, b with
  | [], [] => 0%Z
  | [], _ :: _ => (-1)%Z
  | _ :: _, [] => 1%Z
  | x :: a', y :: b' =>
      if x <? y then (-1)%Z else if y <? x then 1%Z else compareUnits a' b'
  end.

(** Modelled from the spec: [serializeArguments] of
    [lighthouse-core/gather/driver/execution-context.js], which is not among
    the sources; the "literal-expression renderer" that renders a value as a
    source-literal expression, here every argument as its JSON literal,
    separated by commas. *)
Definition jsonArguments (args : list jsstring) : jsstring :=
  join (lit ",") (map JSON_stringify args).

(** Upper case on ASCII letters, code unit order, JSON literals. *)
#[export] Instance host : Host := {|
  toUpperCase := map upperUnit;
  localeCompare := compareUnits;
  serializeArguments := jsonArguments;
|}.

End ExampleHost.

(** * The vocabulary of the properties *)

(** ** Class tokens, as the specification words them *)

(** In the words of the specification: the class tokens of an element.  The
    DOM reads them from the [class] attribute by splitting its value on
    ASCII white space and keeping the first occurrence of every token. *)
Definition isAsciiWhitespace (c : N) : bool :=
  (c =? 9) || (c =? 10) || (c =? 12) || (c =? 13) || (c =? 32).

(** The tokens of [s], after the characters [current] of a token that has
    begun. *)
Fixpoint tokensFrom (current s : jsstring) : list jsstring :=
  match s with
  | [] => if falsy current then [] else [current]
  | c :: r =>
      if isAsciiWhitespace c
      then (if falsy current then tokensFrom [] r
            else current :: tokensFrom [] r)
      else tokensFrom (current ++ [c]) r
  end.

(** The tokens that are not among [seen], each once. *)
Fixpoint orderedSet (seen tokens : list jsstring) : list jsstring :=
  match tokens with
  | [] => []
  | t :: r =>
      if includes seen t then orderedSet seen r
      else t :: orderedSet (seen ++ [t]) r
  end.

Definition classTokens (classAttribute : jsstring) : list jsstring :=
  orderedSet [] (tokensFrom [] classAttribute).

(** A token: not empty and without white space. *)
Definition isToken (t : jsstring) : Prop :=
  t <> [] /\ Forall (fun c => isAsciiWhitespace c = false) t.

(** ** Text nodes and their siblings *)

(** A string has non-whitespace content when one of its characters is not
    white space. *)
Definition hasNonWhitespace (s : jsstring) : Prop :=
  Exists (fun c => isWhiteSpace c = false) s.

(** The previous sibling of the node that follows the segment [before], and
    the next sibling of the node that precedes the segment [after]. *)
Definition siblingBefore (previousSibling : option Node) (before : list Node)
  : option Node :=
  fold_left (fun _ n => Some n) before previousSibling.

Definition siblingAfter (after : list Node) (lastNextSibling : option Node)
  : option Node :=
  match after with n :: _ => Some n | [] => lastNextSibling end.

(** In the words of the specification: the text node is flanked on both sides
    by element siblings of which at least one is a [span]. *)
Definition flankedBySpan (previousSibling nextSibling : option Node) : Prop :=
  exists a childrenOfA b childrenOfB,
    previousSibling = Some (Element a childrenOfA)
    /\ nextSibling = Some (Element b childrenOfB)
    /\ (tagName a = lit "SPAN" \/ tagName b = lit "SPAN").

(** ** Collapsing white space, as the specification words it *)

(** The specification's wording of the collapsing, as a second definition:
    the text is cut into its maximal runs of white space and of other
    characters, and every run of white space becomes a single space. *)
Fixpoint runs (s : jsstring) : list (bool * jsstring) :=
  match s with
  | [] => []
  | c :: r =>
      match runs r with
      | (w, run) :: rest =>
          if Bool.eqb (isWhiteSpace c) w then (w, c :: run) :: rest
          else (isWhiteSpace c, [c]) :: (w, run) :: rest
      | [] => [(isWhiteSpace c, [c])]
      end
  end.

Definition collapseRun (r : bool * jsstring) : jsstring :=
  if fst r then [32] else snd r.

Definition collapseRuns (s : jsstring) : jsstring :=
  concat (map collapseRun (runs s)).

Definition headIsWhiteSpace (s : jsstring) : bool :=
  match s with c :: _ => isWhiteSpace c | [] => false end.

(** The runs are maximal: two adjacent runs are of different kinds. *)
Fixpoint alternating (rs : list (bool * jsstring)) : Prop :=
  match rs with
  | r1 :: (r2 :: _) as rest => fst r1 <> fst r2 /\ alternating rest
  | _ => True
  end.

(** ** String literals of the generated source *)

(** Whether every string literal of a piece of generated source is closed: a
    quote character opens a literal that runs to the next unescaped quote of
    the same kind, a backslash escapes the character after it, and a literal
    may not contain a bare line feed or carriage return.  [open] is the quote
    of the literal the scan is inside of, if any. *)
Fixpoint literalsClosed (open : option N) (s : jsstring) : bool :=
  match s with
  | [] => match open with None => true | Some _ => false end
  | c :: r =>
      match open with
      | None =>
          if (c =? 34) || (c =? 39) then literalsClosed (Some c) r
          else literalsClosed None r
      | Some quote =>
          if c =? 92 then
            match r with
            | _ :: r' => literalsClosed open r'
            | [] => false
            end
          else if c =? quote then literalsClosed None r
          else if (c =? 10) || (c =? 13) then false
          else literalsClosed open r
      end
  end.

(** The value of a hexadecimal digit. *)
Definition hexValue (c : N) : option N :=
  if (48 <=? c) && (c <=? 57) then Some (c - 48)
  else if (97 <=? c) && (c <=? 102) then Some (c - 87)
  else if (65 <=? c) && (c <=? 70) then Some (c - 55)
  else None.

(** The character that a single-character escape of JavaScript stands
    for. *)
Definition singleEscape (c : N) : option N :=
  if c =? 98 then Some 8
  else if c =? 116 then Some 9
  else if c =? 110 then Some 10
  else if c =? 118 then Some 11
  else if c =? 102 then Some 12
  else if c =? 114 then Some 13
  else if (c =? 34) || (c =? 39) || (c =? 92) then Some c
  else None.

(** The string value of a literal, read from the character after its opening
    quote up to its closing [quote], which must be the last character.  The
    escapes read are the single-character escapes and [\uXXXX]; a literal
    with any other escape, or with a bare line break, has no value here. *)
Fixpoint literalValue (quote : N) (s : jsstring) : option jsstring :=
  match s with
  | [] => None
  | c :: r =>
      if c =? quote then (match r with [] => Some [] | _ :: _ => None end)
      else if c =? 92 then
        match r with
        | e :: r1 =>
            if e =? 117 then
              match r1 with
              | h3 :: h2 :: h1 :: h0 :: r2 =>
                  match hexValue h3, hexValue h2, hexValue h1, hexValue h0,
                        literalValue quote r2 with
                  | Some d3, Some d2, Some d1, Some d0, Some v =>
                      Some (4096 * d3 + 256 * d2 + 16 * d1 + d0 :: v)
                  | _, _, _, _, _ => None
                  end
              | _ => None
              end
            else
              match singleEscape e, literalValue quote r1 with
              | Some x, Some v => Some (x :: v)
              | _, _ => None
              end
        | [] => None
        end
      else if (c =? 10) || (c =? 13) then None
      else option_map (cons c) (literalValue quote r)
  end.

(** The value of a string literal in double or in single quotes. *)
Definition stringLiteralValue (s : jsstring) : option jsstring :=
  match s with
  | q :: r => if (q =? 34) || (q =? 39) then literalValue q r else None
  | [] => None
  end.

(** A text that can stand between single quotes as it is: it has no single
    quote, no backslash and no line break. *)
Definition plainInSingleQuotes (s : jsstring) : Prop :=
  Forall (fun c => c <> 39 /\ c <> 92 /\ c <> 10 /\ c <> 13) s.

(** A piece of source without quote characters. *)
Definition quoteFree (s : jsstring) : Prop :=
  Forall (fun c => c <> 34 /\ c <> 39) s.

(** ** Statements *)

Definition pushLines (ls : list jsstring) (st : CompileState) : CompileState :=
  {| elemToVarNames := elemToVarNames st; lines := lines st ++ ls |}.

(** The statement that appends the collected children, if there are any. *)
Definition appendStatement (varName : jsstring) (childNodesToAppend : list jsstring)
  : list jsstring :=
  match childNodesToAppend with
  | [] => []
  | _ :: _ => [varName ++ lit ".append(" ++ join (lit ",") childNodesToAppend
               ++ lit ");"]
  end.

(** The text written to the output file. *)
Definition fileHeader : jsstring :=
  lit "'use strict';" ++ LF
  ++ LF ++ lit "    // auto-generated by build/build-report-components.js" ++ LF
  ++ LF ++ lit "    /** @typedef {import('./dom.js').DOM} DOM */" ++ LF
  ++ LF ++ lit "    /* eslint-disable max-len */" ++ LF
  ++ LF ++ lit "    ".

Definition emittedFile (processedTemplates : list ProcessedTemplate) : jsstring :=
  fileHeader
  ++ join LF (map functionCode processedTemplates)
  ++ LF ++ LF ++ lit "    "
  ++ makeGenericCreateComponentFunctionCode processedTemplates.

(** ** Order *)

(** [a] may stand before [b]. *)
Definition mayPrecede {A : Type} (compareFn : A -> A -> Z) (a b : A) : Prop :=
  (compareFn a b <= 0)%Z.

(** [a] and [b] tie: each may stand before the other. *)
Definition ties {A : Type} (compareFn : A -> A -> Z) (a b : A) : Prop :=
  mayPrecede compareFn a b /\ mayPrecede compareFn b a.

(** No two elements of the list tie. *)
Fixpoint noTies {A : Type} (compareFn : A -> A -> Z) (l : list A) : Prop :=
  match l with
  | [] => True
  | a :: rest =>
      Forall (fun b => ~ ties compareFn a b) rest /\ noTies compareFn rest
  end.

(** The comparator that [main] passes to [sort]. *)
Definition compareTemplates `{Host} (a b : ProcessedTemplate) : Z :=
  localeCompare (componentName a) (componentName b).

(** ** The binding table *)

(** The name given to the [i]-th bound node. *)
Definition nthVarName (i : nat) : jsstring := lit "v" ++ ofNat i.

(** The invariant of [elemToVarNames]: every bound name is [nthVarName i]
    for some [i] below the size of the table, and no name is bound to two
    nodes. *)
Definition boundNames (m : gmap nat jsstring) : Prop :=
  forall el name, m !! el = Some name ->
    exists i, (i < size m)%nat /\ name = nthVarName i.

Definition distinctNames (m : gmap nat jsstring) : Prop :=
  forall el1 el2 name,
    m !! el1 = Some name -> m !! el2 = Some name -> el1 = el2.

Definition tableInvariant (m : gmap nat jsstring) : Prop :=
  boundNames m /\ distinctNames m.

(** A step of the compilation keeps the invariant and every binding. *)
Definition keepsTable (step : CompileState -> CompileState) : Prop :=
  forall st, tableInvariant (elemToVarNames st) ->
    tableInvariant (elemToVarNames (step st))
    /\ elemToVarNames st ⊆ elemToVarNames (step st).

(** ** Lines, normal forms and bound nodes *)

(** [str.split('\n')]: the lines of a text. *)
Fixpoint splitLF (s : jsstring) : list jsstring :=
  match s with
  | [] => [[]]
  | c :: r =>
      if c =? 10 then [] :: splitLF r
      else match splitLF r with
           | l :: ls => (c :: l) :: ls
           | [] => [[c]]
           end
  end.

(** A text without line feed. *)
Definition noLF (s : jsstring) : Prop := Forall (fun c => c <> 10) s.

(** Every white space character of the text is a space that is not followed
    by white space. *)
Fixpoint isolatedSpaces (s : jsstring) : Prop :=
  match s with
  | [] => True
  | c :: r =>
      (isWhiteSpace c = true -> c = 32 /\ headIsWhiteSpace r = false)
      /\ isolatedSpaces r
  end.

(** The characters of a text that are not white space, in order. *)
Definition nonWhitespace (s : jsstring) : jsstring :=
  List.filter (fun c => negb (isWhiteSpace c)) s.

(** The identities of the elements of a subtree. *)
Fixpoint elementRefs (n : Node) : gset nat :=
  match n with
  | Element el childNodes => {[ref el]} ∪ ⋃ (map elementRefs childNodes)
  | _ => ∅
  end.

(** The literals of the text nodes of a child list in which no text node
    has an element sibling: those that [textLiteral] keeps without
    siblings, in order. *)
Fixpoint textLiteralsOf (nodes : list Node) : list jsstring :=
  match nodes with
  | [] => []
  | Text parentElement textContent :: rest =>
      match textLiteral None None parentElement textContent with
      | Some l => l :: textLiteralsOf rest
      | None => textLiteralsOf rest
      end
  | _ :: rest => textLiteralsOf rest
  end.

(** The sibling, if there is one, is not a text node. *)
Definition notText (sibling : option Node) : Prop :=
  match sibling with
  | Some (Text _ _) => False
  | _ => True
  end.

(** ** The generated module at run time *)

(** The emitted file is an ECMAScript module: the function code of the
    processed templates, in order, and then the code of the exported
    dispatcher.  What follows reads from these texts what a call of the
    dispatcher depends on: the name that each function code declares, and
    the name and the statements of the dispatcher.  A text is split into
    its lines; empty lines and the lines of a block comment are passed over;
    the statements inside a template function are not read. *)
























(** ** Induction on nodes *)

(** Induction on nodes, with the property for all child nodes of an
    element. *)
Section NodeInduction.
Variable P : Node -> Prop.
Hypothesis P_Element :
  forall el childNodes, Forall P childNodes -> P (Element el childNodes).
Hypothesis P_Text : forall parentElement textContent,
  P (Text parentElement textContent).
Hypothesis P_Comment : forall data, P (Comment data).

Fixpoint Node_nested_ind (n : Node) : P n :=
  match n with
  | Element el childNodes =>
      P_Element el childNodes
        ((fix all (cs : list Node) : Forall P cs :=
            match cs with
            | [] => @List.Forall_nil _ P
            | c :: rest =>
                @List.Forall_cons _ P c rest (Node_nested_ind c) (all rest)
            end) childNodes)
  | Text parentElement textContent => P_Text parentElement textContent
  | Comment data => P_Comment data
  end.
End NodeInduction.

(** ** Sample documents *)

Module Samples.

Definition xhtml : option jsstring := Some (lit "http://www.w3.org/1999/xhtml").

(** [<span>text</span>] and [<div>text</div>] as children of a [div]. *)
Definition span (r : nat) (text : string) : Node :=
  Element {| ref := r; namespaceURI := xhtml; localName := lit "span";
             tagName := lit "SPAN"; classList := []; attributes := Some [] |}
          [Text (Some (lit "SPAN")) (lit text)].

Definition div (r : nat) (text : string) : Node :=
  Element {| ref := r; namespaceURI := xhtml; localName := lit "div";
             tagName := lit "DIV"; classList := []; attributes := Some [] |}
          [Text (Some (lit "DIV")) (lit text)].

(** [<div></div>], without classes and attributes. *)
Definition plainDiv : ElementProps :=
  {| ref := 1; namespaceURI := xhtml; localName := lit "div";
     tagName := lit "DIV"; classList := []; attributes := Some [] |}.

(** [<div class=" a b a ">], whose class tokens are [a] and [b], and
    [<div class="a b">]. *)
Definition spacedDiv : ElementProps :=
  {| ref := 1; namespaceURI := xhtml; localName := lit "div";
     tagName := lit "DIV"; classList := lit " a b a ";
     attributes := Some [(lit "class", lit " a b a ")] |}.

Definition classyDiv : ElementProps :=
  {| ref := 1; namespaceURI := xhtml; localName := lit "div";
     tagName := lit "DIV"; classList := lit "a b";
     attributes := Some [(lit "class", lit "a b")] |}.


(** The text between double quotes. *)
Definition quoted (text : string) : jsstring := [34] ++ lit text ++ [34].

(** A white space only text node below a [div]. *)
Definition blank : Node := Text (Some (lit "DIV")) (lit "  ").

Definition start : CompileState := {| elemToVarNames := ∅; lines := [] |}.

(** [<template id="a">], [<template id="b">], a second [<template id="a">]
    with other content, and a [<template>] without [id]. *)
Definition templateA : TemplateElement :=
  {| tmplRef := 0; idAttribute := Some (lit "a"); content := [div 1 "A"] |}.

Definition templateB : TemplateElement :=
  {| tmplRef := 10; idAttribute := Some (lit "b"); content := [span 11 "B"] |}.

Definition templateA' : TemplateElement :=
  {| tmplRef := 20; idAttribute := Some (lit "a"); content := [] |}.

Definition templateNoId : TemplateElement :=
  {| tmplRef := 30; idAttribute := None; content := [] |}.

(** [<a class="x" href="#top" title="up">up<!-- c --> </a>]: an element with
    attributes and without element children. *)
Definition anchor : ElementProps :=
  {| ref := 2; namespaceURI := xhtml; localName := lit "a"; tagName := lit "A";
     classList := lit "x";
     attributes := Some [(lit "class", lit "x"); (lit "href", lit "#top");
                         (lit "title", lit "up")] |}.

Definition anchorChildNodes : list Node :=
  [Text (Some (lit "A")) (lit "up"); Comment (lit " c ");
   Text (Some (lit "A")) (lit " ")].

End Samples.

(** * Properties *)

Arguments lit : simpl never.

(** ** Strings *)

Lemma falsy_true (s : jsstring) : falsy s = true <-> s = [].
Proof. destruct s; simpl; split; congruence. Qed.

Lemma falsy_false (s : jsstring) : falsy s = false <-> s <> [].
Proof. destruct s; simpl; split; congruence. Qed.

Lemma eqb_true (a b : jsstring) : eqb a b = true <-> a = b.
Proof. unfold eqb. apply bool_decide_eq_true. Qed.

Lemma eqb_false (a b : jsstring) : eqb a b = false <-> a <> b.
Proof. unfold eqb. apply bool_decide_eq_false. Qed.

Lemma forallb_isWhiteSpace_false (s : jsstring) :
  forallb isWhiteSpace s = false <-> hasNonWhitespace s.
Proof.
  unfold hasNonWhitespace. induction s as [|c r IH]; simpl.
  - split; [discriminate | intros E; inversion E].
  - destruct (isWhiteSpace c) eqn:Hc; simpl.
    + rewrite IH. split; [intros E; now constructor 2 |].
      intros E. inversion E; subst; [congruence | assumption].
    + split; [intros _; now constructor | reflexivity].
Qed.

Lemma trimStart_nil (s : jsstring) :
  trimStart s = [] <-> forallb isWhiteSpace s = true.
Proof.
  induction s as [|c r IH]; simpl; [tauto |].
  destruct (isWhiteSpace c); simpl; [exact IH |].
  split; discriminate.
Qed.

Lemma trimStart_forallb (s : jsstring) :
  forallb isWhiteSpace (trimStart s) = forallb isWhiteSpace s.
Proof.
  induction s as [|c r IH]; simpl; [reflexivity |].
  destruct (isWhiteSpace c) eqn:Hc; simpl; [exact IH |].
  now rewrite Hc.
Qed.

Lemma forallb_rev (f : N -> bool) (s : jsstring) :
  forallb f (rev s) = forallb f s.
Proof.
  induction s as [|c r IH]; simpl; [reflexivity |].
  rewrite forallb_app, IH. simpl. rewrite andb_true_r. apply andb_comm.
Qed.

(** [!str.trim()] holds exactly for the strings made of white space only. *)
Lemma trim_falsy (s : jsstring) :
  falsy (trim s) = forallb isWhiteSpace s.
Proof.
  unfold trim, trimEnd.
  destruct (forallb isWhiteSpace s) eqn:Hs.
  - apply falsy_true. apply trimStart_nil in Hs. now rewrite Hs.
  - apply falsy_false. intros Hnil.
    assert (Hr : trimStart (rev (trimStart s)) = []).
    { destruct (trimStart (rev (trimStart s))); [reflexivity |].
      simpl in Hnil. symmetry in Hnil. now apply app_cons_not_nil in Hnil. }
    apply trimStart_nil in Hr.
    rewrite forallb_rev, trimStart_forallb in Hr. congruence.
Qed.

(** ** The walk over the child nodes *)

Lemma allowJustWhitespace_true (previousSibling nextSibling : option Node) :
  allowJustWhitespace previousSibling nextSibling = true
  <-> flankedBySpan previousSibling nextSibling.
Proof.
  unfold allowJustWhitespace, flankedBySpan, siblingElement. split.
  - destruct previousSibling as [[a ca| |]|]; try discriminate.
    destruct nextSibling as [[b cb| |]|]; try discriminate.
    intros Hor. exists a, ca, b, cb. repeat split.
    apply orb_true_iff in Hor. rewrite !eqb_true in Hor. exact Hor.
  - intros (a & ca & b & cb & -> & -> & Hor).
    apply orb_true_iff. rewrite !eqb_true. exact Hor.
Qed.

Section WalkFacts.
Context `{Host}.

Lemma walkChildNodes_app proc previousSibling before after lastNextSibling acc :
  walkChildNodes proc previousSibling (before ++ after) lastNextSibling acc
  = walkChildNodes proc (siblingBefore previousSibling before) after lastNextSibling
      (walkChildNodes proc previousSibling before
         (siblingAfter after lastNextSibling) acc).
Proof.
  revert previousSibling acc.
  induction before as [|c before IH]; intros previousSibling acc; simpl.
  - reflexivity.
  - rewrite IH. unfold siblingBefore. simpl.
    destruct before; simpl; [destruct after|]; reflexivity.
Qed.

(** When a text node is kept: its [parentElement] is not null, its text is
    not empty, and it has non-whitespace content or is flanked by a span. *)
Lemma textLiteral_is_Some previousSibling nextSibling parentElement textContent :
  is_Some (textLiteral previousSibling nextSibling parentElement textContent)
  <-> parentElement <> None /\ textContent <> []
      /\ (hasNonWhitespace textContent
          \/ flankedBySpan previousSibling nextSibling).
Proof.
  unfold textLiteral.
  destruct parentElement as [parentTagName|].
  2:{ split; [intros [x Hx]; discriminate | intros [Hn _]; congruence]. }
  destruct (falsy textContent) eqn:Hempty.
  { apply falsy_true in Hempty.
    split; [intros [x Hx]; discriminate | intros (_ & Hn & _); congruence]. }
  apply falsy_false in Hempty.
  rewrite trim_falsy.
  destruct (allowJustWhitespace previousSibling nextSibling) eqn:Hallow; simpl.
  - apply allowJustWhitespace_true in Hallow.
    split; [intros _; repeat split; [discriminate | assumption | now right] | eauto].
  - destruct (forallb isWhiteSpace textContent) eqn:Hws.
    + split; [intros [x Hx]; discriminate |].
      intros (_ & _ & [Hnon | Hflank]).
      * apply forallb_isWhiteSpace_false in Hnon. congruence.
      * apply allowJustWhitespace_true in Hflank. congruence.
    + apply forallb_isWhiteSpace_false in Hws.
      split; [intros _; repeat split; [discriminate | assumption | now left] | eauto].
Qed.

(** C1. A text node among the child nodes adds no statement, and it adds an
    entry to the append list exactly when its [parentElement] is not null,
    its text is not empty, and it has non-whitespace content or stands between
    two element siblings of which at least one is a [span]; otherwise it is
    dropped.  Between two spans a node of white space only is therefore kept,
    between two other elements it is dropped. *)
Theorem text_node_kept_iff
    (previousSibling : option Node) (before : list Node)
    (parentElement : option jsstring) (textContent : jsstring)
    (after : list Node) (lastNextSibling : option Node)
    (childNodesToAppend : list jsstring) (st : CompileState) :
  let textNode := Text parentElement textContent in
  let kept :=
    textLiteral (siblingBefore previousSibling before)
                (siblingAfter after lastNextSibling) parentElement textContent in
  walkChildNodes process previousSibling (before ++ textNode :: after)
    lastNextSibling (childNodesToAppend, st)
  = (let '(entries, st1) :=
       walkChildNodes process previousSibling before (Some textNode)
         (childNodesToAppend, st) in
     walkChildNodes process (Some textNode) after lastNextSibling
       (entries ++ match kept with Some l => [l] | None => [] end, st1))
  /\ (is_Some kept
      <-> parentElement <> None /\ textContent <> []
          /\ (hasNonWhitespace textContent
              \/ flankedBySpan (siblingBefore previousSibling before)
                               (siblingAfter after lastNextSibling))).
Proof.
  intros textNode kept. split; [| apply textLiteral_is_Some].
  rewrite walkChildNodes_app. simpl siblingAfter.
  destruct (walkChildNodes process previousSibling before (Some textNode)
              (childNodesToAppend, st)) as [entries st1].
  simpl. fold (siblingAfter after lastNextSibling). fold kept.
  destruct kept; [reflexivity |]. now rewrite app_nil_r.
Qed.

(** C9. A text node whose text is the empty string, or whose [parentElement]
    is null, is skipped whatever its siblings are: the loop body leaves the
    append list and the statements as they were. *)
Theorem empty_or_orphan_text_skipped
    (previousSibling nextSibling : option Node)
    (parentElement : option jsstring) (textContent : jsstring)
    (childNodesToAppend : list jsstring) (st : CompileState) :
  textContent = [] \/ parentElement = None ->
  textLiteral previousSibling nextSibling parentElement textContent = None
  /\ visitChild process previousSibling (Text parentElement textContent)
       nextSibling (childNodesToAppend, st)
     = (childNodesToAppend, st).
Proof.
  intros Hguard.
  assert (Hnone : textLiteral previousSibling nextSibling parentElement
                    textContent = None).
  { unfold textLiteral. destruct Hguard as [-> | ->]; [| reflexivity].
    now destruct parentElement. }
  split; [exact Hnone |]. simpl. now rewrite Hnone.
Qed.

End WalkFacts.

(** ** Collapsing white space *)

(** The runs are a partition of the text. *)
Lemma runs_concat (s : jsstring) : concat (map snd (runs s)) = s.
Proof.
  induction s as [|c r IH]; simpl; [reflexivity |].
  destruct (runs r) as [|[w run] rest]; simpl in *.
  - now rewrite <- IH.
  - destruct (Bool.eqb (isWhiteSpace c) w); simpl; now rewrite <- IH.
Qed.

(** Every run is non-empty and of one kind. *)
Lemma runs_homogeneous (s : jsstring) :
  Forall (fun r => snd r <> [] /\ Forall (fun c => isWhiteSpace c = fst r) (snd r))
         (runs s).
Proof.
  induction s as [|c r IH]; simpl; [constructor |].
  destruct (runs r) as [|[w run] rest]; simpl in *.
  - repeat constructor. discriminate.
  - inversion IH as [|? ? [Hne Hall] Hrest]; subst. simpl in *.
    destruct (Bool.eqb (isWhiteSpace c) w) eqn:Hcw.
    + apply Bool.eqb_prop in Hcw. constructor; [| assumption].
      simpl. split; [discriminate | now constructor].
    + constructor; [| now constructor].
      simpl. split; [discriminate | now repeat constructor].
Qed.

Lemma runs_maximal (s : jsstring) : alternating (runs s).
Proof.
  induction s as [|c r IH]; simpl; [exact I |].
  destruct (runs r) as [|[w run] rest]; simpl in *; [exact I |].
  destruct (Bool.eqb (isWhiteSpace c) w) eqn:Hcw.
  - destruct rest; simpl in *; [exact I | exact IH].
  - split; [| exact IH]. simpl. intros Heq. rewrite Heq in Hcw.
    now rewrite Bool.eqb_reflx in Hcw.
Qed.

Lemma runs_head (c : N) (r : jsstring) :
  exists run rest, runs (c :: r) = (isWhiteSpace c, run) :: rest.
Proof.
  simpl. destruct (runs r) as [|[w run] rest]; [eauto |].
  destruct (Bool.eqb (isWhiteSpace c) w) eqn:Hcw; [| eauto].
  apply Bool.eqb_prop in Hcw. subst. eauto.
Qed.

Lemma collapseRuns_cons (c : N) (r : jsstring) :
  collapseRuns (c :: r)
  = if isWhiteSpace c
    then (if headIsWhiteSpace r then collapseRuns r else 32 :: collapseRuns r)
    else c :: collapseRuns r.
Proof.
  unfold collapseRuns. destruct r as [|d r'].
  - simpl. unfold collapseRun. simpl. now destruct (isWhiteSpace c).
  - destruct (runs_head d r') as (run & rest & Hruns).
    change (runs (c :: d :: r')) with
      (match runs (d :: r') with
       | (w, run) :: rest =>
           if Bool.eqb (isWhiteSpace c) w then (w, c :: run) :: rest
           else (isWhiteSpace c, [c]) :: (w, run) :: rest
       | [] => [(isWhiteSpace c, [c])]
       end).
    rewrite Hruns. simpl headIsWhiteSpace.
    destruct (isWhiteSpace c), (isWhiteSpace d); reflexivity.
Qed.

Lemma replaceRuns_collapseRuns (s : jsstring) :
  replaceRuns false s = collapseRuns s
  /\ (if headIsWhiteSpace s then 32 :: replaceRuns true s else replaceRuns true s)
     = collapseRuns s.
Proof.
  induction s as [|c r [IHf IHt]]; [split; reflexivity |].
  rewrite collapseRuns_cons. simpl.
  destruct (isWhiteSpace c) eqn:Hc.
  - assert (Hgoal : 32 :: replaceRuns true r
                    = (if headIsWhiteSpace r then collapseRuns r
                       else 32 :: collapseRuns r)).
    { destruct (headIsWhiteSpace r); congruence. }
    split; exact Hgoal.
  - split; congruence.
Qed.

(** [replace(/\s+/g, ' ')] does what the specification words. *)
Lemma replaceWhitespace_collapseRuns (s : jsstring) :
  replaceWhitespace s = collapseRuns s.
Proof. apply replaceRuns_collapseRuns. Qed.

(** ** String literals in the generated statements *)

Lemma literalsClosed_plain (c : N) (r : jsstring) :
  c <> 92 -> c <> 34 -> c <> 10 -> c <> 13 ->
  literalsClosed (Some 34) (c :: r) = literalsClosed (Some 34) r.
Proof.
  intros H92 H34 H10 H13. simpl.
  apply N.eqb_neq in H92, H34, H10, H13.
  now rewrite H92, H34, H10, H13.
Qed.

Lemma literalsClosed_escape (c : N) (r : jsstring) :
  literalsClosed (Some 34) (92 :: c :: r) = literalsClosed (Some 34) r.
Proof. reflexivity. Qed.

Lemma hexDigit_plain (d : N) :
  d < 16 ->
  hexDigit d <> 92 /\ hexDigit d <> 34 /\ hexDigit d <> 10 /\ hexDigit d <> 13.
Proof.
  intros Hd. unfold hexDigit. destruct (d <? 10) eqn:Hlt.
  - apply N.ltb_lt in Hlt. lia.
  - apply N.ltb_ge in Hlt. lia.
Qed.

Lemma literalsClosed_unicodeEscape (c : N) (r : jsstring) :
  literalsClosed (Some 34) (unicodeEscape c ++ r) = literalsClosed (Some 34) r.
Proof.
  unfold unicodeEscape.
  change ([92; 117; hexDigit (c / 4096 mod 16); hexDigit (c / 256 mod 16);
           hexDigit (c / 16 mod 16); hexDigit (c mod 16)] ++ r)
    with (92 :: 117 :: hexDigit (c / 4096 mod 16) :: hexDigit (c / 256 mod 16)
          :: hexDigit (c / 16 mod 16) :: hexDigit (c mod 16) :: r).
  rewrite literalsClosed_escape.
  repeat (rewrite literalsClosed_plain;
          [| apply hexDigit_plain, N.mod_lt; discriminate ..]).
  reflexivity.
Qed.

Lemma literalsClosed_quoteUnit (c : N) (r : jsstring) :
  literalsClosed (Some 34) (quoteUnit c ++ r) = literalsClosed (Some 34) r.
Proof.
  unfold quoteUnit.
  repeat (match goal with
          | |- context [if ?x =? ?y then _ else _] =>
              destruct (N.eqb_spec x y); [reflexivity |]
          end).
  destruct ((c <? 32) || isLeadingSurrogate c || isTrailingSurrogate c) eqn:Hesc.
  - apply literalsClosed_unicodeEscape.
  - simpl. apply literalsClosed_plain; assumption.
Qed.

Lemma literalsClosed_quoteUnits (s r : jsstring) :
  literalsClosed (Some 34) (quoteUnits s ++ r) = literalsClosed (Some 34) r.
Proof.
  assert (Hboth : forall s,
             (forall r, literalsClosed (Some 34) (quoteUnits s ++ r)
                        = literalsClosed (Some 34) r)
             /\ (forall c r, literalsClosed (Some 34) (quoteUnits (c :: s) ++ r)
                             = literalsClosed (Some 34) r)).
  { clear s r. induction s as [|d s [IH0 IH1]].
    - split; [reflexivity |]. intros c r. simpl.
      destruct (isLeadingSurrogate c); rewrite ?app_nil_r;
        apply literalsClosed_quoteUnit.
    - split; [exact (IH1 d) |]. intros c r.
      change (quoteUnits (c :: d :: s)) with
        (if isLeadingSurrogate c
         then (if isTrailingSurrogate d then c :: d :: quoteUnits s
               else quoteUnit c ++ quoteUnits (d :: s))
         else quoteUnit c ++ quoteUnits (d :: s)).
      destruct (isLeadingSurrogate c) eqn:Hc.
      + destruct (isTrailingSurrogate d) eqn:Hd.
        * unfold isLeadingSurrogate in Hc. unfold isTrailingSurrogate in Hd.
          apply andb_true_iff in Hc as [Hc1 Hc2].
          apply andb_true_iff in Hd as [Hd1 Hd2].
          apply N.leb_le in Hc1, Hc2, Hd1, Hd2.
          change ((c :: d :: quoteUnits s) ++ r)
            with (c :: d :: (quoteUnits s ++ r)).
          rewrite !literalsClosed_plain by lia. apply IH0.
        * rewrite <- app_assoc, literalsClosed_quoteUnit. apply IH1.
      + rewrite <- app_assoc, literalsClosed_quoteUnit. apply IH1. }
  apply Hboth.
Qed.

(** A JSON literal is one closed string literal, whatever the text. *)
Lemma JSON_stringify_closed (s : jsstring) :
  literalsClosed None (JSON_stringify s) = true.
Proof.
  unfold JSON_stringify.
  change (literalsClosed (Some 34) (quoteUnits s ++ [34]) = true).
  now rewrite literalsClosed_quoteUnits.
Qed.

Lemma literalValue_plain (c : N) (r : jsstring) :
  c <> 92 -> c <> 34 -> c <> 10 -> c <> 13 ->
  literalValue 34 (c :: r) = option_map (cons c) (literalValue 34 r).
Proof.
  intros H92 H34 H10 H13. cbn [literalValue].
  apply N.eqb_neq in H92, H34, H10, H13.
  now rewrite H92, H34, H10, H13.
Qed.

Lemma hexValue_hexDigit (d : N) : d < 16 -> hexValue (hexDigit d) = Some d.
Proof.
  intros Hd. unfold hexDigit, hexValue.
  destruct (N.ltb_spec d 10).
  - replace ((48 <=? 48 + d) && (48 + d <=? 57)) with true.
    + f_equal. lia.
    + symmetry. apply andb_true_iff. split; apply N.leb_le; lia.
  - replace ((48 <=? 87 + d) && (87 + d <=? 57)) with false.
    + replace ((97 <=? 87 + d) && (87 + d <=? 102)) with true.
      * f_equal. lia.
      * symmetry. apply andb_true_iff. split; apply N.leb_le; lia.
    + symmetry. apply andb_false_iff. right. apply N.leb_gt. lia.
Qed.

Lemma hex_digits_value (c : N) :
  c < 65536 ->
  4096 * (c / 4096 mod 16) + 256 * (c / 256 mod 16) + 16 * (c / 16 mod 16)
  + c mod 16 = c.
Proof. intros Hc. zify. Z.to_euclidean_division_equations. lia. Qed.

Lemma literalValue_unicodeEscape (c : N) (r : jsstring) :
  c < 65536 ->
  literalValue 34 (unicodeEscape c ++ r)
  = option_map (cons c) (literalValue 34 r).
Proof.
  intros Hc. unfold unicodeEscape.
  cbn [app literalValue]. cbn [N.eqb Pos.eqb].
  rewrite !hexValue_hexDigit by (apply N.mod_lt; discriminate).
  rewrite hex_digits_value by assumption.
  now destruct (literalValue 34 r).
Qed.

Lemma literalValue_quoteUnit (c : N) (r : jsstring) :
  literalValue 34 (quoteUnit c ++ r) = option_map (cons c) (literalValue 34 r).
Proof.
  unfold quoteUnit.
  repeat (match goal with
          | |- context [if ?x =? ?y then _ else _] =>
              destruct (N.eqb_spec x y);
              [subst; cbn; now destruct (literalValue 34 r) |]
          end).
  destruct ((c <? 32) || isLeadingSurrogate c || isTrailingSurrogate c) eqn:Hesc.
  - apply literalValue_unicodeEscape.
    unfold isLeadingSurrogate, isTrailingSurrogate in Hesc.
    repeat (apply orb_true_iff in Hesc as [Hesc | Hesc]).
    + apply N.ltb_lt in Hesc. lia.
    + apply andb_true_iff in Hesc as [_ Hesc]. apply N.leb_le in Hesc. lia.
    + apply andb_true_iff in Hesc as [_ Hesc]. apply N.leb_le in Hesc. lia.
  - apply literalValue_plain; assumption.
Qed.

Lemma literalValue_quoteUnits (s r : jsstring) :
  literalValue 34 (quoteUnits s ++ r) = option_map (app s) (literalValue 34 r).
Proof.
  assert (Hboth : forall s,
             (forall r, literalValue 34 (quoteUnits s ++ r)
                        = option_map (app s) (literalValue 34 r))
             /\ (forall c r, literalValue 34 (quoteUnits (c :: s) ++ r)
                             = option_map (app (c :: s)) (literalValue 34 r))).
  { clear s r. induction s as [|d s [IH0 IH1]].
    - split; [intros r; cbn; now destruct (literalValue 34 r) |].
      intros c r. cbn [quoteUnits].
      destruct (isLeadingSurrogate c); rewrite ?app_nil_r;
        rewrite literalValue_quoteUnit; now destruct (literalValue 34 r).
    - split; [exact (IH1 d) |]. intros c r.
      change (quoteUnits (c :: d :: s)) with
        (if isLeadingSurrogate c
         then (if isTrailingSurrogate d then c :: d :: quoteUnits s
               else quoteUnit c ++ quoteUnits (d :: s))
         else quoteUnit c ++ quoteUnits (d :: s)).
      assert (Hstep : literalValue 34 ((quoteUnit c ++ quoteUnits (d :: s)) ++ r)
                      = option_map (app (c :: d :: s)) (literalValue 34 r)).
      { rewrite <- app_assoc, literalValue_quoteUnit, IH1.
        now destruct (literalValue 34 r). }
      destruct (isLeadingSurrogate c) eqn:Hc; [| exact Hstep].
      destruct (isTrailingSurrogate d) eqn:Hd; [| exact Hstep].
      unfold isLeadingSurrogate in Hc. unfold isTrailingSurrogate in Hd.
      apply andb_true_iff in Hc as [Hc1 Hc2].
      apply andb_true_iff in Hd as [Hd1 Hd2].
      apply N.leb_le in Hc1, Hc2, Hd1, Hd2.
      change ((c :: d :: quoteUnits s) ++ r) with (c :: d :: (quoteUnits s ++ r)).
      rewrite !literalValue_plain by lia. rewrite IH0.
      now destruct (literalValue 34 r). }
  apply Hboth.
Qed.

(** The JSON literal of a text is a string literal whose value is the text. *)
Lemma JSON_stringify_value (s : jsstring) :
  stringLiteralValue (JSON_stringify s) = Some s.
Proof.
  unfold JSON_stringify, stringLiteralValue.
  rewrite literalValue_quoteUnits. cbn. now rewrite app_nil_r.
Qed.

(** A plain text between single quotes is a closed literal whose value is
    the text. *)
Lemma literalValue_plain_single (s : jsstring) :
  plainInSingleQuotes s -> stringLiteralValue ([39] ++ s ++ [39]) = Some s.
Proof.
  intros Hplain. cbn [app stringLiteralValue N.eqb Pos.eqb orb].
  induction Hplain as [|c s (H39 & H92 & H10 & H13) _ IH]; [reflexivity |].
  cbn [app literalValue].
  apply N.eqb_neq in H39, H92, H10, H13.
  rewrite H39, H92, H10, H13. cbn [orb]. now rewrite IH.
Qed.

Lemma literalsClosed_plain_single (s r : jsstring) :
  plainInSingleQuotes s ->
  literalsClosed (Some 39) (s ++ 39 :: r) = literalsClosed None r.
Proof.
  induction 1 as [|c s (H39 & H92 & H10 & H13) _ IH]; [reflexivity |].
  cbn [app literalsClosed].
  apply N.eqb_neq in H39, H92, H10, H13.
  rewrite H39, H92, H10, H13. cbn [orb]. exact IH.
Qed.

Lemma literalsClosed_quoteFree (s r : jsstring) :
  quoteFree s -> literalsClosed None (s ++ r) = literalsClosed None r.
Proof.
  induction 1 as [|c s (H34 & H39) _ IH]; [reflexivity |].
  cbn [app literalsClosed].
  apply N.eqb_neq in H34, H39. rewrite H34, H39. cbn [orb]. exact IH.
Qed.

Section TextFacts.
Context `{Host}.

(** C2. The literal pushed for a preserved text node is the JSON literal of
    its text after every run of white space has become one space, except
    under a [PRE] or [STYLE] parent, where it is the JSON literal of the
    unchanged text.  For any text the literal is a closed string literal, and
    read back as a string literal its value is the text that was rendered. *)
Theorem preserved_text_literal
    (previousSibling nextSibling : option Node)
    (parentTagName textContent literal : jsstring) :
  textLiteral previousSibling nextSibling (Some parentTagName) textContent
    = Some literal ->
  (parentTagName = lit "PRE" \/ parentTagName = lit "STYLE" ->
   literal = JSON_stringify textContent
   /\ stringLiteralValue literal = Some textContent)
  /\ (parentTagName <> lit "PRE" -> parentTagName <> lit "STYLE" ->
      literal = JSON_stringify (collapseRuns textContent)
      /\ stringLiteralValue literal = Some (collapseRuns textContent))
  /\ literalsClosed None literal = true.
Proof.
  unfold textLiteral. intros Hlit.
  destruct (falsy textContent); [discriminate |].
  destruct (negb (allowJustWhitespace previousSibling nextSibling)
            && falsy (trim textContent)); [discriminate |].
  injection Hlit as <-.
  unfold includes. cbn [existsb]. rewrite orb_false_r.
  assert (Hclosed : forall t, literalsClosed None (JSON_stringify t) = true)
    by apply JSON_stringify_closed.
  assert (Hvalue : forall t, JSON_stringify t = JSON_stringify t
                             /\ stringLiteralValue (JSON_stringify t) = Some t)
    by (intros t; split; [reflexivity | apply JSON_stringify_value]).
  destruct (eqb parentTagName (lit "PRE")) eqn:Hpre;
    [apply eqb_true in Hpre | apply eqb_false in Hpre];
    (destruct (eqb parentTagName (lit "STYLE")) eqn:Hstyle;
     [apply eqb_true in Hstyle | apply eqb_false in Hstyle]);
    cbn [orb negb].
  - split; [intros _; apply Hvalue | split; [congruence | apply Hclosed]].
  - split; [intros _; apply Hvalue | split; [congruence | apply Hclosed]].
  - split; [intros _; apply Hvalue | split; [congruence | apply Hclosed]].
  - rewrite replaceWhitespace_collapseRuns.
    split; [tauto | split; [intros _ _; apply Hvalue | apply Hclosed]].
Qed.

End TextFacts.

(** ** The statements of one element *)

Lemma fold_pushLine (ls : list jsstring) (st : CompileState) :
  fold_left (fun st l => pushLine l st) ls st = pushLines ls st.
Proof.
  revert st. induction ls as [|l ls IH]; intros st; simpl.
  - unfold pushLines. rewrite app_nil_r. now destruct st.
  - rewrite IH. unfold pushLines, pushLine. simpl.
    now rewrite <- app_assoc.
Qed.

Lemma makeOrGetVarName_lines (el : nat) (st : CompileState) :
  lines (snd (makeOrGetVarName el st)) = lines st.
Proof. reflexivity. Qed.

(** ** Class tokens *)

Lemma tokensFrom_token (current t rest : jsstring) :
  Forall (fun c => isAsciiWhitespace c = false) t ->
  tokensFrom current (t ++ rest) = tokensFrom (current ++ t) rest.
Proof.
  intros Ht. revert current. induction Ht as [|c t Hc _ IH]; intros current.
  - now rewrite app_nil_r.
  - cbn [app tokensFrom]. rewrite Hc, IH. now rewrite <- app_assoc.
Qed.

(** Splitting undoes joining with single spaces. *)
Lemma tokensFrom_join (tokens : list jsstring) :
  Forall isToken tokens -> tokensFrom [] (join (lit " ") tokens) = tokens.
Proof.
  induction 1 as [|t tokens [Hne Ht] Hrest IH]; [reflexivity |].
  assert (Hfalsy : falsy t = false) by now apply falsy_false.
  destruct tokens as [|t' tokens].
  - cbn [join]. rewrite <- (app_nil_r t) at 1.
    rewrite tokensFrom_token by assumption.
    cbn [app tokensFrom]. now rewrite Hfalsy.
  - change (join (lit " ") (t :: t' :: tokens))
      with (t ++ 32 :: join (lit " ") (t' :: tokens)).
    rewrite tokensFrom_token by assumption.
    cbn [app tokensFrom]. change (isAsciiWhitespace 32) with true.
    cbv iota. now rewrite Hfalsy, IH.
Qed.

Lemma orderedSet_NoDup (seen tokens : list jsstring) :
  NoDup tokens -> (forall t, In t tokens -> ~ In t seen) ->
  orderedSet seen tokens = tokens.
Proof.
  intros Hnd. revert seen.
  induction Hnd as [|t tokens Hnotin Hnd IH]; intros seen Hfresh;
    [reflexivity |].
  cbn [orderedSet].
  assert (Hnew : includes seen t = false).
  { unfold includes. apply not_true_iff_false. rewrite existsb_exists.
    intros (x & Hx & Heq). apply eqb_true in Heq. subst x.
    apply (Hfresh t); [now left | assumption]. }
  rewrite Hnew. f_equal. apply IH. intros t' Hin Hseen.
  apply in_app_or in Hseen as [Hseen | [<- | []]].
  - apply (Hfresh t'); [now right | assumption].
  - apply Hnotin. now apply list_elem_of_In.
Qed.

(** An attribute written as distinct tokens with single spaces between them
    has these tokens. *)
Lemma classTokens_join (tokens : list jsstring) :
  Forall isToken tokens -> NoDup tokens ->
  classTokens (join (lit " ") tokens) = tokens.
Proof.
  intros Htokens Hnd. unfold classTokens. rewrite tokensFrom_join by assumption.
  apply orderedSet_NoDup; [assumption | intros t _ []].
Qed.

Section ElementFacts.
Context `{Host}.

(** [process] on an element, step by step: bind the variable, emit the
    creation statement and the attribute statements, walk the children, emit
    the append statement. *)
Lemma process_Element (el : ElementProps) (childNodes : list Node)
    (st : CompileState) :
  process (Element el childNodes) st
  = (let '(varName, st1) := makeOrGetVarName (ref el) st in
     let st2 := pushLines (createStatement varName el
                           :: setAttributeStatements varName el) st1 in
     let '(childNodesToAppend, st3) :=
       walkChildNodes process None childNodes None ([], st2) in
     pushLines (appendStatement varName childNodesToAppend) st3).
Proof.
  cbn [process]. unfold makeOrGetVarName.
  rewrite fold_pushLine.
  match goal with
  | |- (let '(_, _) := walkChildNodes _ _ _ _ (_, ?a) in _)
       = (let '(_, _) := walkChildNodes _ _ _ _ (_, ?b) in _) =>
      replace a with b
  end.
  - destruct (walkChildNodes _ _ _ _ _) as [[|e es] st3].
    + unfold pushLines, appendStatement. rewrite app_nil_r. now destruct st3.
    + reflexivity.
  - unfold pushLines, pushLine. cbn [lines elemToVarNames].
    now rewrite <- app_assoc.
Qed.

Lemma isSvg_namespace (el : ElementProps) :
  falsy (effectiveNamespaceURI el) = negb (isSvg el).
Proof.
  unfold effectiveNamespaceURI. destruct (isSvg el) eqn:Hsvg; [| reflexivity].
  unfold isSvg in Hsvg. destruct (namespaceURI el) as [uri|]; [| discriminate].
  apply andb_true_iff in Hsvg as [Hne _]. simpl.
  now apply negb_true_iff in Hne.
Qed.

Lemma attributeNamesToSet_not_class (el : ElementProps) :
  Forall (fun attr => attr <> lit "class") (attributeNamesToSet el).
Proof.
  unfold attributeNamesToSet. destruct (attributes el) as [attrs|]; [| constructor].
  apply List.Forall_forall. intros attr Hin.
  apply List.filter_In in Hin as [_ Hne].
  apply negb_true_iff in Hne. now apply eqb_false in Hne.
Qed.

(** C3, as the code has it.  The statements [process] emits for an element
    are, in this order: the creation statement, one set-attribute statement
    for each attribute name other than [class], the statements of its
    descendants, and the append statement.  The creation arguments are the
    namespace URI (for an SVG element only), the local name, and the string
    that [classList.toString()] gives, which is the [class] attribute as
    written; this string is passed only when it is not empty.  It is the
    class tokens joined by single spaces when the attribute is written that
    way, with every token once. *)
Theorem creation_statement_folds_class
    (el : ElementProps) (childNodes : list Node) (st : CompileState) :
  let varName := fst (makeOrGetVarName (ref el) st) in
  let className := classList_toString el in
  (exists childNodesToAppend st2 st3,
      walkChildNodes process None childNodes None ([], st2)
        = (childNodesToAppend, st3)
      /\ lines st2
         = lines st
           ++ (lit "const " ++ varName ++ lit " = dom." ++ createElementFnName el
               ++ lit "(" ++ serializeArguments (createArgs el) ++ lit ");")
           :: map (fun attr =>
                     setAttributeStatement varName attr
                       (getAttribute (default [] (attributes el)) attr))
                  (attributeNamesToSet el)
      /\ lines (process (Element el childNodes) st)
         = lines st3 ++ appendStatement varName childNodesToAppend)
  /\ createArgs el
     = (if isSvg el then [default [] (namespaceURI el)] else [])
       ++ [localName el]
       ++ (if falsy className then [] else [className])
  /\ Forall (fun attr => attr <> lit "class") (attributeNamesToSet el)
  /\ (forall tokens,
        Forall isToken tokens -> NoDup tokens ->
        className = join (lit " ") tokens ->
        classTokens className = tokens
        /\ createArgs el
           = (if isSvg el then [default [] (namespaceURI el)] else [])
             ++ [localName el]
             ++ match tokens with
                | [] => []
                | _ :: _ => [join (lit " ") tokens]
                end).
Proof.
  intros varName className.
  assert (Hargs : createArgs el
                  = (if isSvg el then [default [] (namespaceURI el)] else [])
                    ++ [localName el]
                    ++ (if falsy className then [] else [className])).
  { unfold createArgs. rewrite isSvg_namespace. fold className.
    unfold effectiveNamespaceURI.
    destruct (isSvg el), (falsy className); reflexivity. }
  split; [| split; [exact Hargs | split]].
  - rewrite process_Element. subst varName.
    pose proof (makeOrGetVarName_lines (ref el) st) as Hlines.
    destruct (makeOrGetVarName (ref el) st) as [varName st1]. cbn [fst snd] in *.
    set (st2 := pushLines _ st1).
    destruct (walkChildNodes process None childNodes None ([], st2))
      as [childNodesToAppend st3] eqn:Hwalk.
    exists childNodesToAppend, st2, st3. repeat split; try assumption.
    subst st2. unfold pushLines. cbn [lines]. now rewrite Hlines.
  - apply attributeNamesToSet_not_class.
  - intros tokens Htokens Hnd Hwritten. split.
    + rewrite Hwritten. now apply classTokens_join.
    + rewrite Hargs, Hwritten. do 2 f_equal.
      destruct tokens as [|t tokens]; [reflexivity |].
      assert (Hne : join (lit " ") (t :: tokens) <> []).
      { apply Forall_cons in Htokens as [[Ht _] _].
        destruct t; [congruence |]. now destruct tokens. }
      apply falsy_false in Hne. now rewrite Hne.
Qed.

End ElementFacts.

(** ** Attribute statements *)

(** With pairwise distinct attribute names, [getAttribute] gives each
    attribute its own value, so there is exactly one statement per attribute
    other than [class], in declaration order, with the attribute's own name
    and value. *)
Lemma getAttribute_own (attrs : list (jsstring * jsstring)) (n v : jsstring) :
  NoDup (map fst attrs) -> In (n, v) attrs -> getAttribute attrs n = v.
Proof.
  induction attrs as [|[n' v'] attrs IH]; intros Hnd Hin; [destruct Hin |].
  simpl. apply NoDup_cons in Hnd as [Hnotin Hnd].
  destruct (eqb n' n) eqn:Heq.
  - apply eqb_true in Heq. subst n'.
    destruct Hin as [Hhead | Htail]; [congruence |].
    exfalso. apply Hnotin. apply list_elem_of_In.
    exact (List.in_map fst attrs (n, v) Htail).
  - apply eqb_false in Heq.
    destruct Hin as [Hhead | Htail]; [congruence | now apply IH].
Qed.

Lemma setAttributeStatements_in_order (varName : jsstring) (el : ElementProps)
    (attrs : list (jsstring * jsstring)) :
  attributes el = Some attrs ->
  NoDup (map fst attrs) ->
  setAttributeStatements varName el
  = map (fun a => setAttributeStatement varName (fst a) (snd a))
        (List.filter (fun a => negb (eqb (fst a) (lit "class"))) attrs).
Proof.
  intros Hattrs Hnd. unfold setAttributeStatements, attributeNamesToSet.
  rewrite Hattrs. cbn [default]. unfold getAttributeNames.
  assert (Hsub : forall a, In a attrs -> getAttribute attrs (fst a) = snd a).
  { intros [n v] Hin. now apply getAttribute_own. }
  assert (Hgen : forall l,
             (forall a, In a l -> getAttribute attrs (fst a) = snd a) ->
             map (fun attr => setAttributeStatement varName attr
                                (getAttribute attrs attr))
                 (List.filter (fun attr => negb (eqb attr (lit "class")))
                              (map fst l))
             = map (fun a => setAttributeStatement varName (fst a) (snd a))
                   (List.filter (fun a => negb (eqb (fst a) (lit "class"))) l)).
  { induction l as [|a l IH]; intros Hl; [reflexivity |].
    cbn [map List.filter].
    destruct (negb (eqb (fst a) (lit "class"))).
    - cbn [map]. rewrite Hl by now left.
      f_equal. apply IH. intros b Hb. apply Hl. now right.
    - apply IH. intros b Hb. apply Hl. now right. }
  now apply Hgen.
Qed.

(** For a name and a value that can stand between single quotes as they
    are, the statement is closed. *)
Lemma setAttributeStatement_closed (varName attr value : jsstring) :
  quoteFree varName -> plainInSingleQuotes attr -> plainInSingleQuotes value ->
  literalsClosed None (setAttributeStatement varName attr value) = true.
Proof.
  intros Hvar Hattr Hvalue. unfold setAttributeStatement.
  rewrite literalsClosed_quoteFree by assumption.
  change (literalsClosed (Some 39)
            (attr ++ 39 :: lit ", '" ++ value ++ lit "');") = true).
  rewrite literalsClosed_plain_single by assumption.
  change (literalsClosed (Some 39) (value ++ 39 :: lit ");") = true).
  now rewrite literalsClosed_plain_single by assumption.
Qed.

Section AttributeFacts.
Context `{Host}.

(** C4, where the code departs from it.  The attribute [title="it's"] of a
    [div] yields the statement [v0.setAttribute('title', 'it's');], in which
    the value's quote closes the literal and the final quote opens one that
    is never closed; the creation statement before it is closed. *)
Theorem attribute_value_breaks_literal :
  let el := {| ref := 1; namespaceURI := Some (lit "http://www.w3.org/1999/xhtml");
               localName := lit "div"; tagName := lit "DIV"; classList := [];
               attributes := Some [(lit "title", lit "it's")] |} in
  let st := process (Element el []) {| elemToVarNames := ∅; lines := [] |} in
  lines st = [createStatement (lit "v0") el;
              lit "v0.setAttribute('title', 'it's');"]
  /\ literalsClosed None (lit "v0.setAttribute('title', 'it's');") = false
  /\ literalsClosed None (lit "v0.setAttribute('title', 'its');") = true.
Proof.
  cbv zeta. split; [| split]; [| vm_compute; reflexivity ..].
  rewrite process_Element. reflexivity.
Qed.

End AttributeFacts.

(** ** Sorting *)

Section SortFacts.
Context {A : Type} (compareFn : A -> A -> Z).

Lemma sortInsert_Permutation (a : A) (l : list A) :
  Permutation (sortInsert compareFn a l) (a :: l).
Proof.
  induction l as [|b l IH]; simpl; [reflexivity |].
  destruct (compareFn a b <=? 0)%Z; [reflexivity |].
  rewrite IH. apply perm_swap.
Qed.

Lemma Array_sort_Permutation (l : list A) :
  Permutation (Array_sort compareFn l) l.
Proof.
  induction l as [|a l IH]; simpl; [reflexivity |].
  rewrite sortInsert_Permutation. now constructor.
Qed.

(** A consistent comparator: any two elements are comparable, and
    [mayPrecede] is transitive. *)
Hypothesis compare_total :
  forall a b, mayPrecede compareFn a b \/ mayPrecede compareFn b a.
Hypothesis compare_trans :
  forall a b c, mayPrecede compareFn a b -> mayPrecede compareFn b c ->
                mayPrecede compareFn a c.

Lemma sortInsert_Sorted (a : A) (l : list A) :
  Sorted (mayPrecede compareFn) l ->
  Sorted (mayPrecede compareFn) (sortInsert compareFn a l).
Proof.
  induction l as [|b l IH]; intros Hs; simpl.
  - repeat constructor.
  - destruct (Z.leb_spec (compareFn a b) 0) as [Hle | Hgt].
    + constructor; [assumption | now constructor].
    + apply Sorted_inv in Hs as [Hs Hhd].
      constructor; [now apply IH |].
      assert (Hba : mayPrecede compareFn b a).
      { destruct (compare_total a b) as [Hab | Hba]; [| assumption].
        unfold mayPrecede in Hab. lia. }
      destruct l as [|c l]; simpl.
      * now constructor.
      * destruct (compareFn a c <=? 0)%Z; constructor; [assumption |].
        now apply HdRel_inv in Hhd.
Qed.

Lemma Array_sort_Sorted (l : list A) :
  Sorted (mayPrecede compareFn) (Array_sort compareFn l).
Proof.
  induction l as [|a l IH]; simpl; [constructor | now apply sortInsert_Sorted].
Qed.

Lemma ties_refl (a : A) : ties compareFn a a.
Proof. unfold ties. destruct (compare_total a a); tauto. Qed.

Lemma ties_sym (a b : A) : ties compareFn a b -> ties compareFn b a.
Proof. unfold ties. tauto. Qed.

Lemma ties_trans (a b c : A) :
  ties compareFn a b -> ties compareFn b c -> ties compareFn a c.
Proof. unfold ties. intros [? ?] [? ?]. split; eauto. Qed.

Lemma Forall2_ties_refl (l : list A) : Forall2 (ties compareFn) l l.
Proof. induction l; constructor; auto using ties_refl. Qed.

Lemma Forall2_ties_trans (l1 l2 l3 : list A) :
  Forall2 (ties compareFn) l1 l2 -> Forall2 (ties compareFn) l2 l3 ->
  Forall2 (ties compareFn) l1 l3.
Proof.
  intros H12. revert l3. induction H12; intros l3 H23; inversion H23; subst;
    constructor; eauto using ties_trans.
Qed.

Lemma sortInsert_ties (a : A) (l l' : list A) :
  Forall2 (ties compareFn) l l' ->
  Forall2 (ties compareFn) (sortInsert compareFn a l) (sortInsert compareFn a l').
Proof.
  induction 1 as [|b b' l l' Hb Hl IH]; simpl.
  - constructor; [apply ties_refl | constructor].
  - destruct Hb as [Hbb' Hb'b].
    destruct (Z.leb_spec (compareFn a b) 0) as [Hab | Hab];
      destruct (Z.leb_spec (compareFn a b') 0) as [Hab' | Hab'].
    + constructor; [apply ties_refl |]. constructor; [now split | assumption].
    + exfalso. pose proof (compare_trans a b b' Hab Hbb') as Hc.
      unfold mayPrecede in Hc. lia.
    + exfalso. pose proof (compare_trans a b' b Hab' Hb'b) as Hc.
      unfold mayPrecede in Hc. lia.
    + constructor; [now split | assumption].
Qed.

(** Inserting two elements in either order gives the same list up to the
    order of elements that tie. *)
Lemma sortInsert_swap (a b : A) (l : list A) :
  Forall2 (ties compareFn) (sortInsert compareFn a (sortInsert compareFn b l))
               (sortInsert compareFn b (sortInsert compareFn a l)).
Proof.
  assert (Hnot : forall x y, (0 < compareFn x y)%Z -> mayPrecede compareFn y x).
  { intros x y Hxy. destruct (compare_total x y) as [Hc | Hc]; [| assumption].
    unfold mayPrecede in Hc. lia. }
  induction l as [|c l IH]; simpl.
  - destruct (Z.leb_spec (compareFn a b) 0) as [Hab | Hab];
      destruct (Z.leb_spec (compareFn b a) 0) as [Hba | Hba].
    + repeat constructor; assumption.
    + apply Forall2_ties_refl.
    + apply Forall2_ties_refl.
    + apply Hnot in Hab. unfold mayPrecede in Hab. lia.
  - destruct (Z.leb_spec (compareFn b c) 0) as [Hbc | Hbc];
      destruct (Z.leb_spec (compareFn a c) 0) as [Hac | Hac]; simpl.
    + destruct (Z.leb_spec (compareFn a b) 0) as [Hab | Hab];
        destruct (Z.leb_spec (compareFn b a) 0) as [Hba | Hba].
      * constructor; [now split |]. constructor; [now split |].
        apply Forall2_ties_refl.
      * destruct (Z.leb_spec (compareFn b c) 0); [| lia].
        apply Forall2_ties_refl.
      * destruct (Z.leb_spec (compareFn a c) 0); [| lia].
        apply Forall2_ties_refl.
      * apply Hnot in Hab. unfold mayPrecede in Hab. lia.
    + destruct (Z.leb_spec (compareFn a b) 0) as [Hab | Hab].
      * exfalso. pose proof (compare_trans a b c Hab Hbc) as Hc.
        unfold mayPrecede in Hc. lia.
      * destruct (Z.leb_spec (compareFn a c) 0); [lia |].
        destruct (Z.leb_spec (compareFn b c) 0); [| lia].
        apply Forall2_ties_refl.
    + destruct (Z.leb_spec (compareFn a c) 0); [| lia].
      destruct (Z.leb_spec (compareFn b a) 0) as [Hba | Hba].
      * exfalso. pose proof (compare_trans b a c Hba Hac) as Hc.
        unfold mayPrecede in Hc. lia.
      * destruct (Z.leb_spec (compareFn b c) 0); [lia |].
        apply Forall2_ties_refl.
    + destruct (Z.leb_spec (compareFn a c) 0); [lia |].
      destruct (Z.leb_spec (compareFn b c) 0); [lia |].
      constructor; [apply ties_refl | exact IH].
Qed.

(** Sorting two arrangements of the same elements gives the same list up to
    the order of elements that tie. *)
Lemma Array_sort_ties (l l' : list A) :
  Permutation l l' ->
  Forall2 (ties compareFn) (Array_sort compareFn l) (Array_sort compareFn l').
Proof.
  induction 1 as [| a l l' _ IH | a b l | l1 l2 l3 _ IH12 _ IH23]; simpl.
  - constructor.
  - now apply sortInsert_ties.
  - apply sortInsert_swap.
  - eapply Forall2_ties_trans; eassumption.
Qed.

Lemma noTies_Permutation (l l' : list A) :
  Permutation l l' -> noTies compareFn l -> noTies compareFn l'.
Proof.
  induction 1 as [| a l l' Hp IH | a b l | l1 l2 l3 _ IH12 _ IH23]; simpl.
  - trivial.
  - intros [Ha Hl]. split; [| now apply IH].
    eapply Permutation_Forall; eassumption.
  - intros [Hb [Ha Hl]].
    apply Forall_cons in Hb as [Hba Hb].
    repeat split; try assumption.
    constructor; [| assumption]. intros Hab. apply Hba. now apply ties_sym.
  - auto.
Qed.

Lemma ties_Permutation_eq (l l' : list A) :
  Forall2 (ties compareFn) l l' -> Permutation l l' -> noTies compareFn l -> l = l'.
Proof.
  induction 1 as [|a a' l l' Ha Hl IH]; intros Hperm Hno; [reflexivity |].
  destruct Hno as [Hnone Hno].
  assert (Haa : a' = a).
  { assert (Hin : In a' (a :: l)).
    { eapply Permutation_in; [symmetry; exact Hperm | now left]. }
    destruct Hin as [Heq | Hin]; [now symmetry |].
    exfalso. rewrite List.Forall_forall in Hnone. exact (Hnone a' Hin Ha). }
  subst a'. f_equal. apply IH; [| assumption].
  now apply Permutation_cons_inv in Hperm.
Qed.

(** Without ties, the sorted list does not depend on the arrangement. *)
Lemma Array_sort_Permutation_eq (l l' : list A) :
  Permutation l l' -> noTies compareFn l ->
  Array_sort compareFn l = Array_sort compareFn l'.
Proof.
  intros Hperm Hno.
  apply ties_Permutation_eq.
  - now apply Array_sort_ties.
  - rewrite !Array_sort_Permutation. exact Hperm.
  - eapply noTies_Permutation; [| exact Hno].
    symmetry. apply Array_sort_Permutation.
Qed.

End SortFacts.

(** ** The emitted file *)

Lemma trimStart_app_whitespace (p s : jsstring) :
  forallb isWhiteSpace p = true -> trimStart (p ++ s) = trimStart s.
Proof.
  induction p as [|c p IH]; simpl; [reflexivity |].
  destruct (isWhiteSpace c); [exact IH | discriminate].
Qed.

Lemma trimStart_id (s : jsstring) :
  headIsWhiteSpace s = false -> trimStart s = s.
Proof. destruct s as [|c r]; simpl; [reflexivity |]. now intros ->. Qed.

Lemma trimEnd_app_whitespace (s p : jsstring) :
  forallb isWhiteSpace p = true -> trimEnd (s ++ p) = trimEnd s.
Proof.
  intros Hp. unfold trimEnd. rewrite rev_app_distr.
  rewrite trimStart_app_whitespace; [reflexivity |].
  now rewrite forallb_rev.
Qed.

Lemma trimEnd_id (s : jsstring) (c : N) :
  isWhiteSpace c = false -> trimEnd (s ++ [c]) = s ++ [c].
Proof.
  intros Hc. unfold trimEnd. rewrite rev_app_distr. simpl.
  rewrite Hc. simpl. now rewrite rev_involutive.
Qed.

Section MainFacts.
Context `{Host}.

Lemma createFunctionCode_end functionName bodyLines parameterNames :
  exists code,
    createFunctionCode functionName bodyLines parameterNames = code ++ [125].
Proof.
  unfold createFunctionCode.
  change (lit "}") with [125].
  eexists. rewrite !app_assoc. reflexivity.
Qed.

Lemma trim_codeTemplate (processedTemplates : list ProcessedTemplate) :
  trim (codeTemplate processedTemplates) = emittedFile processedTemplates.
Proof.
  unfold trim, codeTemplate, emittedFile, fileHeader,
    makeGenericCreateComponentFunctionCode.
  destruct (createFunctionCode_end (lit "createComponent")
              (dispatcherLines processedTemplates)
              [lit "dom"; lit "componentName"]) as [code ->].
  match goal with
  | |- context [trimStart (LF ++ lit "    'use strict';" ++ ?rest)] =>
      change (LF ++ lit "    'use strict';" ++ rest)
        with ((LF ++ lit "    ") ++ lit "'use strict';" ++ rest)
  end.
  rewrite trimStart_app_whitespace by reflexivity.
  rewrite trimStart_id by reflexivity.
  rewrite !app_assoc.
  rewrite trimEnd_app_whitespace by reflexivity.
  rewrite trimEnd_app_whitespace by reflexivity.
  rewrite trimEnd_id by reflexivity.
  reflexivity.
Qed.

(** [main] always completes normally, with the header, the function code of
    the sorted templates and then the dispatcher. *)
Lemma main_Normal (tmplEls : list TemplateElement) :
  main tmplEls = Normal (emittedFile (sortedTemplates tmplEls)).
Proof. unfold main. now rewrite trim_codeTemplate. Qed.

Lemma sortedTemplates_Permutation (tmplEls : list TemplateElement) :
  Permutation (sortedTemplates tmplEls) (map compileTemplate tmplEls).
Proof. apply Array_sort_Permutation. Qed.

Lemma componentName_compileTemplate (t : TemplateElement) :
  componentName (compileTemplate t) = id_of t.
Proof. reflexivity. Qed.

Lemma functionName_compileTemplate (t : TemplateElement) :
  functionName (compileTemplate t) = functionNameOf (id_of t).
Proof. reflexivity. Qed.

Lemma sortedTemplates_ids (tmplEls : list TemplateElement) :
  Permutation (map componentName (sortedTemplates tmplEls)) (map id_of tmplEls).
Proof.
  rewrite sortedTemplates_Permutation, map_map.
  apply Permutation_refl.
Qed.

Lemma sortedTemplates_In (tmplEls : list TemplateElement) (p : ProcessedTemplate) :
  In p (sortedTemplates tmplEls)
  <-> exists t, In t tmplEls /\ p = compileTemplate t.
Proof.
  split.
  - intros Hin.
    apply (Permutation_in _ (sortedTemplates_Permutation tmplEls)) in Hin.
    apply in_map_iff in Hin as (t & <- & Ht). eauto.
  - intros (t & Ht & ->).
    apply (Permutation_in _ (Permutation_sym (sortedTemplates_Permutation tmplEls))).
    now apply in_map.
Qed.

End MainFacts.

(** ** The lines of a function *)

Lemma splitLF_line (l rest : jsstring) :
  noLF l -> splitLF (l ++ LF ++ rest) = l :: splitLF rest.
Proof.
  induction 1 as [|c l Hc _ IH]; [reflexivity |].
  cbn [app splitLF]. apply N.eqb_neq in Hc. rewrite Hc.
  change (l ++ 10 :: rest) with (l ++ LF ++ rest). now rewrite IH.
Qed.


(** Splitting undoes joining for lines without line feed. *)
Lemma splitLF_join (ls : list jsstring) (rest : jsstring) :
  ls <> [] -> Forall noLF ls ->
  splitLF (join LF ls ++ LF ++ rest) = ls ++ splitLF rest.
Proof.
  intros Hne Hall. induction Hall as [|l ls Hl Hls IH]; [congruence |].
  destruct ls as [|l' ls].
  - cbn [join app]. now apply splitLF_line.
  - change (join LF (l :: l' :: ls)) with (l ++ LF ++ join LF (l' :: ls)).
    rewrite <- !app_assoc. rewrite splitLF_line by assumption.
    change ((l :: l' :: ls) ++ splitLF rest)
      with (l :: ((l' :: ls) ++ splitLF rest)).
    f_equal. now apply IH.
Qed.

Lemma noLF_app (a b : jsstring) : noLF a -> noLF b -> noLF (a ++ b).
Proof. unfold noLF. intros. now apply Forall_app. Qed.

Lemma noLF_join (sep : jsstring) (ls : list jsstring) :
  noLF sep -> Forall noLF ls -> noLF (join sep ls).
Proof.
  intros Hsep. induction 1 as [|l ls Hl Hls IH]; [constructor |].
  destruct ls as [|l' ls]; [exact Hl |].
  change (join sep (l :: l' :: ls)) with (l ++ sep ++ join sep (l' :: ls)).
  auto using noLF_app.
Qed.

Lemma noLF_lit_decide (s : jsstring) :
  forallb (fun c => negb (c =? 10)) s = true -> noLF s.
Proof.
  unfold noLF. induction s as [|c s IH]; [constructor |].
  cbn [forallb]. intros Hall. apply andb_true_iff in Hall as [Hc Hs].
  constructor; [| now apply IH].
  apply negb_true_iff in Hc. now apply N.eqb_neq.
Qed.

(** ** Reading the generated module *)























(** ** Identifiers, dispatch and order *)

(** The label of a case line is the identifier between single quotes; for
    an identifier that can stand there as it is, the value of this literal is
    the identifier. *)
Lemma caseLine_label (t : ProcessedTemplate) :
  caseLine t
  = lit "  case " ++ ([39] ++ componentName t ++ [39]) ++ lit ": return "
    ++ functionName t ++ lit "(dom);"
  /\ (plainInSingleQuotes (componentName t) ->
      stringLiteralValue ([39] ++ componentName t ++ [39])
      = Some (componentName t)).
Proof.
  split; [| apply literalValue_plain_single].
  unfold caseLine.
  change (lit "  case '") with (lit "  case " ++ [39]).
  change (lit "': return ") with ([39] ++ lit ": return ").
  now rewrite <- !app_assoc.
Qed.

Section MainClaims.
Context `{Host}.

(** C5, as the code has it.  A template without an [id] attribute is not
    rejected: [main] completes normally for every list of templates, and
    such a template is compiled like any other, with the empty string as
    component name and the function name built from it. *)
Theorem template_without_id_is_compiled (tmplEls : list TemplateElement) :
  (exists code, main tmplEls = Normal code)
  /\ (forall t, In t tmplEls -> idAttribute t = None ->
        In (compileTemplate t) (sortedTemplates tmplEls)
        /\ componentName (compileTemplate t) = []
        /\ functionName (compileTemplate t)
           = lit "create" ++ toUpperCase [] ++ lit "Component").
Proof.
  split; [eexists; apply main_Normal |].
  intros t Hin Hid. split; [| split].
  - apply sortedTemplates_In. eauto.
  - rewrite componentName_compileTemplate. unfold id_of. now rewrite Hid.
  - rewrite functionName_compileTemplate. unfold id_of. rewrite Hid.
    unfold functionNameOf, upperFirst. simpl. now rewrite app_nil_r.
Qed.

(** C6, as the code has it.  No identifier is checked: [main] completes
    normally for every list of templates, the dispatcher gets one case per
    template, labelled with that template's identifier, and these labels are
    the identifiers of the document in sorted order.  They are pairwise
    distinct, and non-empty, exactly when the identifiers of the document
    are. *)
Theorem dispatch_keys_are_the_identifiers (tmplEls : list TemplateElement) :
  let processedTemplates := sortedTemplates tmplEls in
  let keys := map componentName processedTemplates in
  (exists code, main tmplEls = Normal code)
  /\ dispatcherLines processedTemplates
     = [lit "switch (componentName) {"]
       ++ map (fun t => lit "  case '" ++ componentName t ++ lit "': return "
                        ++ functionName t ++ lit "(dom);") processedTemplates
       ++ [lit "}";
           lit "throw new Error('unexpected component: ' + componentName)"]
  /\ Permutation keys (map id_of tmplEls)
  /\ (NoDup keys <-> NoDup (map id_of tmplEls))
  /\ (Forall (fun key => key <> []) keys
      <-> Forall (fun id => id <> []) (map id_of tmplEls)).
Proof.
  intros processedTemplates keys.
  pose proof (sortedTemplates_ids tmplEls) as Hperm. fold keys in Hperm.
  split; [eexists; apply main_Normal |].
  split; [reflexivity |].
  split; [exact Hperm |].
  split.
  - subst keys processedTemplates. now rewrite Hperm.
  - split; intros Hall.
    + eapply Permutation_Forall; [exact Hperm | exact Hall].
    + eapply Permutation_Forall; [symmetry; exact Hperm | exact Hall].
Qed.




Lemma noTies_compileTemplate (tmplEls : list TemplateElement) :
  noTies localeCompare (map id_of tmplEls) ->
  noTies compareTemplates (map compileTemplate tmplEls).
Proof.
  induction tmplEls as [|t tmplEls IH]; simpl; [trivial |].
  intros [Hnone Hno]. split; [| now apply IH].
  rewrite List.Forall_forall in *. intros p Hp.
  apply in_map_iff in Hp as (t' & <- & Hin).
  apply (Hnone (id_of t')). now apply in_map.
Qed.

Lemma ties_componentName (l l' : list ProcessedTemplate) :
  Forall2 (ties compareTemplates) l l' ->
  Forall2 (ties localeCompare) (map componentName l) (map componentName l').
Proof. induction 1; simpl; constructor; assumption. Qed.

Hypothesis localeCompare_total :
  forall a b, (localeCompare a b <= 0)%Z \/ (localeCompare b a <= 0)%Z.
Hypothesis localeCompare_trans :
  forall a b c, (localeCompare a b <= 0)%Z -> (localeCompare b c <= 0)%Z ->
                (localeCompare a c <= 0)%Z.

(** C8. For a consistent [localeCompare], the emitted file is the header,
    then the functions of the templates in ascending order of their
    identifiers, then the dispatcher.  For any other order of the templates
    in the document the identifiers come out in the same order, up to the
    order of identifiers that [localeCompare] ties; and when no two
    identifiers tie, the emitted file is the same. *)
Theorem functions_in_identifier_order (tmplEls tmplEls' : list TemplateElement) :
  Permutation tmplEls tmplEls' ->
  let processedTemplates := sortedTemplates tmplEls in
  main tmplEls
  = Normal (fileHeader
            ++ join LF (map functionCode processedTemplates)
            ++ LF ++ LF ++ lit "    "
            ++ makeGenericCreateComponentFunctionCode processedTemplates)
  /\ StronglySorted
       (fun a b => (localeCompare (componentName a) (componentName b) <= 0)%Z)
       processedTemplates
  /\ Forall2 (fun id id' => (localeCompare id id' <= 0)%Z
                            /\ (localeCompare id' id <= 0)%Z)
       (map componentName processedTemplates)
       (map componentName (sortedTemplates tmplEls'))
  /\ (noTies localeCompare (map id_of tmplEls) -> main tmplEls' = main tmplEls).
Proof.
  intros Hperm processedTemplates.
  assert (Htotal : forall a b, mayPrecede compareTemplates a b
                               \/ mayPrecede compareTemplates b a).
  { intros a b. apply localeCompare_total. }
  assert (Htrans : forall a b c, mayPrecede compareTemplates a b ->
                                 mayPrecede compareTemplates b c ->
                                 mayPrecede compareTemplates a c).
  { intros a b c. apply localeCompare_trans. }
  assert (Hmap : Permutation (map compileTemplate tmplEls)
                             (map compileTemplate tmplEls')).
  { now apply Permutation_map. }
  split; [apply main_Normal |]. split; [| split].
  - apply Sorted_StronglySorted.
    + intros a b c. apply localeCompare_trans.
    + apply (Array_sort_Sorted compareTemplates Htotal).
  - apply (ties_componentName processedTemplates (sortedTemplates tmplEls')).
    apply (Array_sort_ties compareTemplates Htotal Htrans). exact Hmap.
  - intros Hno. rewrite !main_Normal. f_equal. f_equal. symmetry.
    apply (Array_sort_Permutation_eq compareTemplates Htotal Htrans).
    + exact Hmap.
    + now apply noTies_compileTemplate.
Qed.

End MainClaims.

(** ** The binding table *)

Lemma lit_inj (s t : string) : lit s = lit t -> s = t.
Proof.
  revert t. induction s as [|c s IH]; intros [|d t]; simpl; try discriminate.
  - reflexivity.
  - intros [= Hcd Hst]. f_equal; [| now apply IH].
    rewrite <- (Stdlib.Strings.Ascii.ascii_N_embedding c),
            <- (Stdlib.Strings.Ascii.ascii_N_embedding d).
    now rewrite Hcd.
Qed.

Lemma nthVarName_inj (i j : nat) : nthVarName i = nthVarName j -> i = j.
Proof.
  unfold nthVarName, ofNat. intros Heq.
  apply app_inv_head, lit_inj in Heq.
  now apply (inj pretty) in Heq.
Qed.

Lemma nthVarName_truthy (i : nat) : falsy (nthVarName i) = false.
Proof. reflexivity. Qed.

Lemma tableInvariant_empty : tableInvariant ∅.
Proof.
  split; [intros el name Hl | intros el1 el2 name Hl];
    now rewrite lookup_empty in Hl.
Qed.

Lemma makeOrGetVarName_bound (el : nat) (st : CompileState) (bound : jsstring) :
  tableInvariant (elemToVarNames st) ->
  elemToVarNames st !! el = Some bound ->
  makeOrGetVarName el st = (bound, st).
Proof.
  intros [Hnames _] Hl. unfold makeOrGetVarName. rewrite Hl.
  destruct (Hnames el bound Hl) as (i & _ & ->).
  rewrite nthVarName_truthy, insert_id by assumption.
  now destruct st.
Qed.

Lemma makeOrGetVarName_fresh (el : nat) (st : CompileState) :
  elemToVarNames st !! el = None ->
  makeOrGetVarName el st
  = (nthVarName (size (elemToVarNames st)),
     {| elemToVarNames :=
          <[el := nthVarName (size (elemToVarNames st))]> (elemToVarNames st);
        lines := lines st |}).
Proof. intros Hl. unfold makeOrGetVarName. now rewrite Hl. Qed.

Lemma tableInvariant_insert (m : gmap nat jsstring) (el : nat) :
  tableInvariant m -> m !! el = None ->
  tableInvariant (<[el := nthVarName (size m)]> m).
Proof.
  intros [Hnames Hdistinct] Hfresh. split.
  - intros k name Hl. rewrite map_size_insert_None by assumption.
    destruct (decide (el = k)) as [-> | Hne].
    + rewrite lookup_insert_eq in Hl. injection Hl as <-.
      exists (size m). split; [lia | reflexivity].
    + rewrite lookup_insert_ne in Hl by assumption.
      destruct (Hnames k name Hl) as (i & Hi & ->).
      exists i. split; [lia | reflexivity].
  - assert (Hnew : forall k, m !! k = Some (nthVarName (size m)) -> False).
    { intros k Hl. destruct (Hnames k _ Hl) as (i & Hi & Heq).
      apply nthVarName_inj in Heq. lia. }
    intros k1 k2 name Hl1 Hl2.
    destruct (decide (el = k1)) as [-> | Hne1];
      destruct (decide (k1 = k2)) as [-> | Hne2]; try reflexivity.
    + rewrite lookup_insert_eq in Hl1. injection Hl1 as <-.
      rewrite lookup_insert_ne in Hl2 by assumption.
      destruct (Hnew _ Hl2).
    + rewrite lookup_insert_ne in Hl1 by assumption.
      destruct (decide (el = k2)) as [-> | Hne3].
      * rewrite lookup_insert_eq in Hl2. injection Hl2 as <-.
        destruct (Hnew _ Hl1).
      * rewrite lookup_insert_ne in Hl2 by assumption.
        destruct (Hne2 (Hdistinct k1 k2 name Hl1 Hl2)).
Qed.

(** What one call of [makeOrGetVarName] does to a table that satisfies the
    invariant. *)
Lemma makeOrGetVarName_spec (el : nat) (st : CompileState) :
  tableInvariant (elemToVarNames st) ->
  let name := fst (makeOrGetVarName el st) in
  let st' := snd (makeOrGetVarName el st) in
  tableInvariant (elemToVarNames st')
  /\ elemToVarNames st ⊆ elemToVarNames st'
  /\ elemToVarNames st' !! el = Some name
  /\ (elemToVarNames st !! el = None ->
      name = lit "v" ++ ofNat (size (elemToVarNames st)))
  /\ (forall bound, elemToVarNames st !! el = Some bound ->
      name = bound /\ elemToVarNames st' = elemToVarNames st).
Proof.
  intros Hinv. cbv zeta.
  destruct (elemToVarNames st !! el) as [bound|] eqn:Hl.
  - rewrite (makeOrGetVarName_bound el st bound Hinv Hl). cbn [fst snd].
    split; [assumption |]. split; [reflexivity |]. split; [assumption |].
    split; [discriminate |]. intros bound' [= <-]. now split.
  - rewrite (makeOrGetVarName_fresh el st Hl). cbn [fst snd elemToVarNames].
    split; [now apply tableInvariant_insert |].
    split; [now apply insert_subseteq |].
    split; [apply lookup_insert_eq |].
    split; [reflexivity | discriminate].
Qed.

Section TableFacts.
Context `{Host}.

Lemma walkChildNodes_keepsTable (childNodes : list Node) :
  Forall (fun c => keepsTable (process c)) childNodes ->
  forall previousSibling lastNextSibling acc,
    keepsTable (fun st =>
      snd (walkChildNodes process previousSibling childNodes lastNextSibling
             (acc, st))).
Proof.
  induction 1 as [|c rest Hc _ IH];
    intros previousSibling lastNextSibling acc st Hinv.
  - simpl. now split.
  - cbn [walkChildNodes].
    set (nextSibling :=
           match rest with n :: _ => Some n | [] => lastNextSibling end).
    assert (Hstep : exists acc',
               visitChild process previousSibling c nextSibling (acc, st)
               = (acc', if isElement c then process c st else st)).
    { destruct c as [el cs | pe tc | data]; cbn [visitChild isElement].
      - destruct (elemToVarNames (process (Element el cs) st) !! ref el)
          as [name|]; [destruct (falsy name) |]; eauto.
      - destruct (textLiteral previousSibling nextSibling pe tc); eauto.
      - eauto. }
    destruct Hstep as [acc' ->].
    assert (Hmid : tableInvariant
                     (elemToVarNames (if isElement c then process c st else st))
                   /\ elemToVarNames st
                      ⊆ elemToVarNames (if isElement c then process c st else st)).
    { destruct (isElement c); [now apply Hc | now split]. }
    destruct Hmid as [Hinv' Hsub].
    destruct (IH (Some c) lastNextSibling acc' _ Hinv') as [Hinv'' Hsub'].
    split; [exact Hinv'' |]. etrans; eassumption.
Qed.

Lemma process_keepsTable (n : Node) : keepsTable (process n).
Proof.
  induction n as [el childNodes IH | |] using Node_nested_ind;
    [| intros st Hinv; now split ..].
  intros st Hinv. rewrite process_Element.
  destruct (makeOrGetVarName_spec (ref el) st Hinv) as (Hinv1 & Hsub1 & _).
  destruct (makeOrGetVarName (ref el) st) as [varName st1]. cbn [fst snd] in *.
  set (st2 := pushLines _ st1).
  pose proof (walkChildNodes_keepsTable childNodes IH None None [] st2 Hinv1)
    as [Hinv3 Hsub3].
  destruct (walkChildNodes process None childNodes None ([], st2))
    as [childNodesToAppend st3].
  cbn [snd pushLines elemToVarNames] in *.
  split; [exact Hinv3 |]. etrans; eassumption.
Qed.

Lemma compileTopLevel_keepsTable (fragmentVarName : jsstring) (topLevelEl : Node) :
  keepsTable (fun st => compileTopLevel fragmentVarName st topLevelEl).
Proof.
  intros st Hinv. unfold compileTopLevel.
  destruct (process_keepsTable topLevelEl st Hinv) as [Hinv1 Hsub1].
  destruct topLevelEl as [el cs | |]; [| now split ..].
  destruct (makeOrGetVarName_spec (ref el) _ Hinv1) as (Hinv2 & Hsub2 & _).
  destruct (makeOrGetVarName (ref el) (process (Element el cs) st))
    as [name st2]. cbn [fst snd pushLine elemToVarNames] in *.
  split; [exact Hinv2 |]. etrans; eassumption.
Qed.

Lemma fold_compileTopLevel_keepsTable (fragmentVarName : jsstring)
    (topLevelEls : list Node) :
  keepsTable (fun st =>
    fold_left (compileTopLevel fragmentVarName) topLevelEls st).
Proof.
  induction topLevelEls as [|e rest IH]; intros st Hinv; [now split |].
  cbn [fold_left].
  destruct (compileTopLevel_keepsTable fragmentVarName e st Hinv) as [Hinv1 Hsub1].
  destruct (IH _ Hinv1) as [Hinv2 Hsub2].
  split; [exact Hinv2 |]. etrans; eassumption.
Qed.

(** C10. While a template is compiled, no name of [elemToVarNames] is bound
    to two nodes: the table starts empty, [makeOrGetVarName] binds an unbound
    node to ['v'] followed by the size of the table and leaves a bound node
    with its name, [process] keeps the invariant and every binding, and at
    the end the invariant holds with the template bound to [v0]. *)
Theorem binding_table_invariant (tmpEl : TemplateElement) :
  (forall el st, tableInvariant (elemToVarNames st) ->
     let name := fst (makeOrGetVarName el st) in
     let st' := snd (makeOrGetVarName el st) in
     tableInvariant (elemToVarNames st')
     /\ elemToVarNames st ⊆ elemToVarNames st'
     /\ elemToVarNames st' !! el = Some name
     /\ (elemToVarNames st !! el = None ->
         name = lit "v" ++ ofNat (size (elemToVarNames st)))
     /\ (forall bound, elemToVarNames st !! el = Some bound ->
         name = bound /\ elemToVarNames st' = elemToVarNames st))
  /\ (forall node st, tableInvariant (elemToVarNames st) ->
        tableInvariant (elemToVarNames (process node st))
        /\ elemToVarNames st ⊆ elemToVarNames (process node st))
  /\ tableInvariant (elemToVarNames (compileBody tmpEl))
  /\ elemToVarNames (compileBody tmpEl) !! tmplRef tmpEl = Some (lit "v0")
  /\ (forall el1 el2 name,
        elemToVarNames (compileBody tmpEl) !! el1 = Some name ->
        elemToVarNames (compileBody tmpEl) !! el2 = Some name -> el1 = el2).
Proof.
  split; [exact makeOrGetVarName_spec |].
  split; [exact process_keepsTable |].
  assert (Hfinal : tableInvariant (elemToVarNames (compileBody tmpEl))
                   /\ elemToVarNames (compileBody tmpEl) !! tmplRef tmpEl
                      = Some (lit "v0")).
  { unfold compileBody.
    set (st0 := {| elemToVarNames := ∅; lines := [] |}).
    destruct (makeOrGetVarName_spec (tmplRef tmpEl) st0 tableInvariant_empty)
      as (Hinv1 & _ & Hroot & Hname & _).
    specialize (Hname (lookup_empty _)).
    destruct (makeOrGetVarName (tmplRef tmpEl) st0) as [fragmentVarName st1].
    cbn [fst snd] in *.
    assert (Hv0 : fragmentVarName = lit "v0").
    { rewrite Hname. subst st0. cbn [elemToVarNames].
      rewrite map_size_empty. reflexivity. }
    set (st2 := pushLine _ st1).
    destruct (fold_compileTopLevel_keepsTable fragmentVarName
                (children (content tmpEl)) st2 Hinv1) as [Hinv3 Hsub3].
    cbn [pushLine elemToVarNames]. split; [exact Hinv3 |].
    eapply lookup_weaken; [| exact Hsub3].
    subst st2. cbn [pushLine elemToVarNames]. now rewrite <- Hv0. }
  destruct Hfinal as [Hinv Hroot].
  split; [exact Hinv |]. split; [exact Hroot |]. exact (proj2 Hinv).
Qed.

End TableFacts.

(** * Instances of the theorems on concrete documents *)

Import ExampleHost Samples.

Lemma compareUnits_total (a b : jsstring) :
  (compareUnits a b <= 0)%Z \/ (compareUnits b a <= 0)%Z.
Proof.
  revert b. induction a as [|x a IH]; intros [|y b]; simpl; try lia.
  destruct (N.ltb_spec x y), (N.ltb_spec y x); try lia. apply IH.
Qed.

Lemma compareUnits_trans (a b c : jsstring) :
  (compareUnits a b <= 0)%Z -> (compareUnits b c <= 0)%Z ->
  (compareUnits a c <= 0)%Z.
Proof.
  revert b c. induction a as [|x a IH]; intros [|y b] [|z c]; simpl; try lia.
  destruct (N.ltb_spec x y), (N.ltb_spec y x), (N.ltb_spec y z),
    (N.ltb_spec z y), (N.ltb_spec x z), (N.ltb_spec z x); try lia.
  apply IH.
Qed.

(** The statements of [<div><span>A</span>  <span>B</span></div>]: the
    white space between the spans is appended as the literal of one space. *)
Lemma whitespace_between_spans_in_the_output :
  lines (process (Element plainDiv [span 2 "A"; blank; span 3 "B"]) start)
  = [lit "const v0 = dom.createElement(" ++ quoted "div" ++ lit ");";
     lit "const v1 = dom.createElement(" ++ quoted "span" ++ lit ");";
     lit "v1.append(" ++ quoted "A" ++ lit ");";
     lit "const v2 = dom.createElement(" ++ quoted "span" ++ lit ");";
     lit "v2.append(" ++ quoted "B" ++ lit ");";
     lit "v0.append(v1," ++ quoted " " ++ lit ",v2);"].
Proof. vm_compute. reflexivity. Qed.

(** A text node of white space between two [span] siblings is kept, and the
    same node between two [div] siblings is dropped: the append lists of
    [text_node_kept_iff] at these children. *)
Lemma text_node_between_spans_and_divs :
  fst (walkChildNodes process None ([span 2 "A"] ++ blank :: [span 3 "B"]) None
         ([], start))
    = [lit "v0"; JSON_stringify (lit " "); lit "v1"]
  /\ fst (walkChildNodes process None ([div 2 "A"] ++ blank :: [div 3 "B"]) None
            ([], start))
     = [lit "v0"; lit "v1"].
Proof.
  split.
  - rewrite (proj1 (text_node_kept_iff None [span 2 "A"] (Some (lit "DIV"))
                      (lit "  ") [span 3 "B"] None [] start)).
    vm_compute. reflexivity.
  - rewrite (proj1 (text_node_kept_iff None [div 2 "A"] (Some (lit "DIV"))
                      (lit "  ") [div 3 "B"] None [] start)).
    vm_compute. reflexivity.
Defined.

(** A text node with several spaces below a [div], and the same text below
    a [pre]. *)
Lemma preserved_text_literal_div :
  (textLiteral None None (Some (lit "DIV")) (lit "a   b")
     = Some (JSON_stringify (lit "a b"))
   /\ JSON_stringify (lit "a b") = JSON_stringify (collapseRuns (lit "a   b"))
   /\ stringLiteralValue (JSON_stringify (lit "a b"))
      = Some (collapseRuns (lit "a   b"))
   /\ literalsClosed None (JSON_stringify (lit "a b")) = true)
  /\ (textLiteral None None (Some (lit "PRE")) (lit "a   b")
        = Some (JSON_stringify (lit "a   b"))
      /\ stringLiteralValue (JSON_stringify (lit "a   b")) = Some (lit "a   b")).
Proof.
  assert (Hdiv : textLiteral None None (Some (lit "DIV")) (lit "a   b")
                 = Some (JSON_stringify (lit "a b")))
    by (vm_compute; reflexivity).
  assert (Hpre : textLiteral None None (Some (lit "PRE")) (lit "a   b")
                 = Some (JSON_stringify (lit "a   b")))
    by (vm_compute; reflexivity).
  split.
  - split; [exact Hdiv |].
    destruct (preserved_text_literal None None (lit "DIV") (lit "a   b")
                (JSON_stringify (lit "a b")) Hdiv)
      as (_ & Hcollapsed & Hclosed).
    destruct Hcollapsed as [Hliteral Hvalue]; [vm_compute; discriminate .. |].
    split; [exact Hliteral |]. split; [exact Hvalue | exact Hclosed].
  - split; [exact Hpre |].
    destruct (preserved_text_literal None None (lit "PRE") (lit "a   b")
                (JSON_stringify (lit "a   b")) Hpre) as (Hkept & _).
    destruct Hkept as [_ Hvalue]; [now left | exact Hvalue].
Defined.

(** A [div] without classes: the class string is empty and is not among the
    creation arguments; the statement is [const v0 = dom.createElement("div");].
    A [div] with [class=" a b a "]: its tokens are [a] and [b], and the
    argument is the attribute as written, not the tokens joined. *)
Lemma no_class_argument_without_classes :
  classList_toString plainDiv = []
  /\ createArgs plainDiv = [lit "div"]
  /\ ~ In (classList_toString plainDiv) (createArgs plainDiv)
  /\ lines (process (Element plainDiv []) start)
     = [lit "const v0 = dom.createElement(" ++ [34] ++ lit "div" ++ [34]
        ++ lit ");"]
  /\ getAttribute (default [] (attributes spacedDiv)) (lit "class")
     = classList_toString spacedDiv
  /\ classTokens (classList_toString spacedDiv) = [lit "a"; lit "b"]
  /\ createArgs spacedDiv = [lit "div"; lit " a b a "]
  /\ ~ In (join (lit " ") (classTokens (classList_toString spacedDiv)))
          (createArgs spacedDiv)
  /\ lines (process (Element spacedDiv []) start)
     = [lit "const v0 = dom.createElement(" ++ quoted "div" ++ lit ","
        ++ quoted " a b a " ++ lit ");"].
Proof.
  split; [reflexivity |]. split; [reflexivity |].
  split; [vm_compute; intros [Heq | []]; discriminate |].
  split; [vm_compute; reflexivity |].
  split; [reflexivity |].
  split; [vm_compute; reflexivity |]. split; [reflexivity |].
  split; [| vm_compute; reflexivity].
  vm_compute. intros [Heq | [Heq | []]]; discriminate.
Qed.

(** An element whose [class] attribute is written [a b]: its tokens are [a]
    and [b], and the class argument is [a b]. *)
Lemma creation_statement_with_classes :
  classTokens (classList_toString classyDiv) = [lit "a"; lit "b"]
  /\ createArgs classyDiv = [lit "div"; lit "a b"].
Proof.
  assert (Htokens : Forall isToken [lit "a"; lit "b"]).
  { repeat (apply List.Forall_cons;
            [split; [discriminate | repeat constructor] |]).
    apply List.Forall_nil. }
  assert (Hnd : NoDup [lit "a"; lit "b"]).
  { apply (bool_decide_unpack (NoDup [lit "a"; lit "b"])).
    vm_compute. exact I. }
  exact (proj2 (proj2 (proj2 (creation_statement_folds_class classyDiv []
                                start)))
           [lit "a"; lit "b"] Htokens Hnd eq_refl).
Defined.

(** A template without [id]: [main] does not throw, and the template's
    function is named [createComponent]. *)
Lemma template_without_id_accepted :
  idAttribute templateNoId = None
  /\ (forall message, main [templateNoId] <> Throw message)
  /\ componentName (compileTemplate templateNoId) = []
  /\ functionName (compileTemplate templateNoId) = lit "createComponent".
Proof.
  split; [reflexivity |]. split; [| split; vm_compute; reflexivity].
  intros message. rewrite main_Normal. discriminate.
Qed.

Lemma template_without_id_is_compiled_here :
  In (compileTemplate templateNoId) (sortedTemplates [templateA; templateNoId])
  /\ componentName (compileTemplate templateNoId) = []
  /\ functionName (compileTemplate templateNoId)
     = lit "create" ++ toUpperCase [] ++ lit "Component".
Proof.
  apply (proj2 (template_without_id_is_compiled [templateA; templateNoId])).
  - right. now left.
  - reflexivity.
Defined.

(** Two templates with the identifier [a] and one without identifier: [main]
    does not throw, and the dispatch keys are the empty string and [a]
    twice. *)
Lemma duplicate_identifiers_accepted :
  (forall message, main [templateA; templateA'; templateNoId] <> Throw message)
  /\ map componentName (sortedTemplates [templateA; templateA'; templateNoId])
     = [[]; lit "a"; lit "a"]
  /\ ~ NoDup (map componentName
                (sortedTemplates [templateA; templateA'; templateNoId]))
  /\ ~ Forall (fun key => key <> [])
         (map componentName
            (sortedTemplates [templateA; templateA'; templateNoId])).
Proof.
  assert (Hkeys : map componentName
                    (sortedTemplates [templateA; templateA'; templateNoId])
                  = [[]; lit "a"; lit "a"]) by (vm_compute; reflexivity).
  split; [intros message; rewrite main_Normal; discriminate |].
  split; [exact Hkeys |]. rewrite Hkeys. split.
  - intros Hnd. apply NoDup_cons in Hnd as [_ Hnd].
    apply NoDup_cons in Hnd as [Hnotin _]. apply Hnotin. now left.
  - intros Hall. apply Forall_cons in Hall as [Hne _]. now apply Hne.
Qed.





(** The templates [b] and [a], in both orders. *)
Lemma functions_in_identifier_order_here :
  Permutation [templateB; templateA] [templateA; templateB]
  /\ map componentName (sortedTemplates [templateB; templateA])
     = [lit "a"; lit "b"]
  /\ main [templateA; templateB] = main [templateB; templateA].
Proof.
  split; [apply perm_swap |].
  split; [vm_compute; reflexivity |].
  apply (@functions_in_identifier_order host compareUnits_total
           compareUnits_trans [templateB; templateA] [templateA; templateB]
           (perm_swap _ _ _)).
  change (noTies compareUnits [lit "b"; lit "a"]).
  split; [| split; [constructor | exact I]].
  constructor; [| constructor].
  intros [Hba _]. vm_compute in Hba. now apply Hba.
Defined.

(** Two templates with the same identifier tie, and the sort leaves them in
    the order of the document. *)
Lemma tied_identifiers_keep_source_order :
  sortedTemplates [templateA; templateA']
    = [compileTemplate templateA; compileTemplate templateA']
  /\ sortedTemplates [templateA'; templateA]
     = [compileTemplate templateA'; compileTemplate templateA].
Proof. split; vm_compute; reflexivity. Qed.

(** Between two spans, an empty text node is skipped, and so is a text node
    whose [parentElement] is null. *)
Lemma empty_text_between_spans_skipped :
  visitChild process (Some (span 2 "A")) (Text (Some (lit "DIV")) [])
    (Some (span 3 "B")) ([], start)
  = ([], start)
  /\ visitChild process (Some (span 2 "A")) (Text None (lit " "))
       (Some (span 3 "B")) ([], start)
     = ([], start).
Proof.
  split.
  - apply (empty_or_orphan_text_skipped (Some (span 2 "A")) (Some (span 3 "B"))
             (Some (lit "DIV")) [] [] start).
    now left.
  - apply (empty_or_orphan_text_skipped (Some (span 2 "A")) (Some (span 3 "B"))
             None (lit " ") [] start).
    now right.
Defined.

(** The table after compiling the template [a]: the template is [v0] and its
    [div] is [v1]. *)
Lemma binding_table_of_templateA :
  elemToVarNames (compileBody templateA) !! 0%nat = Some (lit "v0")
  /\ elemToVarNames (compileBody templateA) !! 1%nat = Some (lit "v1")
  /\ (forall el, elemToVarNames (compileBody templateA) !! el = Some (lit "v1")
                 -> el = 1%nat).
Proof.
  destruct (binding_table_invariant templateA)
    as (_ & _ & _ & Hroot & Hdistinct).
  assert (Hdiv : elemToVarNames (compileBody templateA) !! 1%nat
                 = Some (lit "v1")) by (vm_compute; reflexivity).
  split; [exact Hroot |]. split; [exact Hdiv |].
  intros el Hel. exact (Hdistinct el 1%nat (lit "v1") Hel Hdiv).
Defined.

(** * Further properties of the script *)

(** ** The creation function and the namespace *)

Lemma endsWith_spec (s suffix : jsstring) :
  endsWith s suffix = true <-> exists prefix, s = prefix ++ suffix.
Proof.
  unfold endsWith. rewrite andb_true_iff, eqb_true, Nat.leb_le. split.
  - intros [Hdrop _]. exists (take (length s - length suffix) s).
    rewrite <- Hdrop at 2. symmetry. apply take_drop.
  - intros [prefix ->]. rewrite length_app. split; [| lia].
    replace (length prefix + length suffix - length suffix)%nat
      with (length prefix) by lia.
    apply drop_app_length.
Qed.

Lemma isSvg_spec (el : ElementProps) :
  isSvg el = true <-> exists prefix, namespaceURI el = Some (prefix ++ lit "/svg").
Proof.
  unfold isSvg. destruct (namespaceURI el) as [uri|].
  - rewrite andb_true_iff, endsWith_spec, negb_true_iff, falsy_false. split.
    + intros [_ [prefix ->]]. eauto.
    + intros [prefix [= ->]]. split; [| eauto].
      intros Hnil. apply app_eq_nil in Hnil as [_ Hnil]. discriminate.
  - split; [discriminate | intros [prefix Hnone]; discriminate].
Qed.

(** X1. An element is created with [createElementNS] exactly when its
    namespace URI ends in [/svg], whatever its tag name is; the namespace URI
    is then the first creation argument and the local name the second.  Every
    other element, one without namespace included, is created with
    [createElement] and the local name as first argument. *)
Theorem svg_namespace_detection (el : ElementProps) :
  (createElementFnName el = lit "createElementNS"
   <-> exists prefix, namespaceURI el = Some (prefix ++ lit "/svg"))
  /\ (createElementFnName el = lit "createElement"
      <-> ~ exists prefix, namespaceURI el = Some (prefix ++ lit "/svg"))
  /\ (forall prefix, namespaceURI el = Some (prefix ++ lit "/svg") ->
        exists rest,
          createArgs el = (prefix ++ lit "/svg") :: localName el :: rest)
  /\ ((~ exists prefix, namespaceURI el = Some (prefix ++ lit "/svg")) ->
      exists rest, createArgs el = localName el :: rest).
Proof.
  pose proof (isSvg_spec el) as Hsvg.
  pose proof (isSvg_namespace el) as Hfalsy.
  unfold createElementFnName, createArgs. rewrite Hfalsy.
  destruct (isSvg el) eqn:His; cbn [negb].
  - assert (Hex : exists prefix, namespaceURI el = Some (prefix ++ lit "/svg"))
      by now apply Hsvg.
    split; [tauto |]. split; [split; [discriminate | tauto] |].
    split; [| tauto].
    intros prefix Huri. unfold effectiveNamespaceURI. rewrite His, Huri.
    cbn [default].
    destruct (falsy (classList_toString el)); eauto.
  - assert (Hno : ~ exists prefix, namespaceURI el = Some (prefix ++ lit "/svg")).
    { intros Hex. apply Hsvg in Hex. discriminate. }
    split; [split; [discriminate | tauto] |]. split; [tauto |].
    split; [intros prefix Huri; destruct Hno; eauto |].
    intros _. destruct (falsy (classList_toString el)); eauto.
Qed.

(** ** Function names *)

Section FunctionNames.
Context `{Host}.

(** X2. The function name of a template is [create], the identifier with
    its first character replaced by that character's upper case, and
    [Component]; the rest of the identifier is kept as it is.  Two identifiers
    get the same function name exactly when they agree after this
    replacement, so identifiers that differ only in the case of the first
    letter share one function name. *)
Theorem function_name_of_identifier (id id' : jsstring) :
  (functionNameOf id = functionNameOf id' <-> upperFirst id = upperFirst id')
  /\ (forall c rest,
        functionNameOf (c :: rest)
        = lit "create" ++ toUpperCase [c] ++ rest ++ lit "Component")
  /\ (forall c c' rest, toUpperCase [c] = toUpperCase [c'] ->
        functionNameOf (c :: rest) = functionNameOf (c' :: rest)).
Proof.
  unfold functionNameOf. split; [| split].
  - split; [| now intros ->].
    intros Heq. apply app_inv_head in Heq. now apply app_inv_tail in Heq.
  - intros c rest. unfold upperFirst. cbn [charAt0 substr1].
    now rewrite <- app_assoc.
  - intros c c' rest Hupper. unfold upperFirst. cbn [charAt0 substr1].
    now rewrite Hupper.
Qed.

End FunctionNames.

(** ** The text of a function, line by line *)

(** X3. When the function name, the parameter names and the body lines hold
    no line feed, the lines of the text of [createFunctionCode] are the
    header, every body line indented by two spaces, in order, and the closing
    brace; with no body line there is one empty line between header and
    brace. *)
Theorem createFunctionCode_lines
    (functionName : jsstring) (bodyLines parameterNames : list jsstring) :
  noLF functionName -> Forall noLF parameterNames -> Forall noLF bodyLines ->
  splitLF (createFunctionCode functionName bodyLines parameterNames)
  = (lit "function " ++ functionName ++ lit "("
     ++ join (lit ", ") parameterNames ++ lit ") {")
    :: match bodyLines with
       | [] => [[]]
       | _ :: _ => map (fun l => lit "  " ++ l) bodyLines
       end
    ++ [lit "}"].
Proof.
  intros Hname Hparams Hbody. unfold createFunctionCode.
  assert (Hheader : noLF (lit "function " ++ functionName ++ lit "("
                          ++ join (lit ", ") parameterNames ++ lit ") {")).
  { repeat apply noLF_app; try assumption;
      try (apply noLF_lit_decide; reflexivity).
    apply noLF_join; [apply noLF_lit_decide; reflexivity | assumption]. }
  replace (lit "function " ++ functionName ++ lit "("
           ++ join (lit ", ") parameterNames ++ lit ") {" ++ LF
           ++ join LF (map (fun l => lit "  " ++ l) bodyLines) ++ LF ++ lit "}")
    with ((lit "function " ++ functionName ++ lit "("
           ++ join (lit ", ") parameterNames ++ lit ") {") ++ LF
          ++ join LF (map (fun l => lit "  " ++ l) bodyLines) ++ LF ++ lit "}")
    by now rewrite <- !app_assoc.
  rewrite splitLF_line by assumption. f_equal.
  destruct bodyLines as [|b bodyLines]; [reflexivity |].
  rewrite splitLF_join; [reflexivity | discriminate |].
  apply List.Forall_forall. intros l Hin.
  apply in_map_iff in Hin as (l0 & <- & Hl0).
  apply noLF_app; [apply noLF_lit_decide; reflexivity |].
  rewrite List.Forall_forall in Hbody. now apply Hbody.
Qed.

(** ** Collapsed white space *)

Lemma replaceRuns_true_head (s : jsstring) :
  headIsWhiteSpace s = false -> replaceRuns true s = replaceRuns false s.
Proof. destruct s as [|c r]; [reflexivity |]. simpl. now intros ->. Qed.

Lemma replaceRuns_shape (s : jsstring) :
  (isolatedSpaces (replaceRuns false s)
   /\ nonWhitespace (replaceRuns false s) = nonWhitespace s)
  /\ (isolatedSpaces (replaceRuns true s)
      /\ headIsWhiteSpace (replaceRuns true s) = false
      /\ nonWhitespace (replaceRuns true s) = nonWhitespace s).
Proof.
  unfold nonWhitespace.
  induction s as [|c r [[IHf1 IHf2] [IHt1 [IHt2 IHt3]]]]; [now repeat split |].
  cbn [replaceRuns List.filter]. destruct (isWhiteSpace c) eqn:Hc; cbn [negb].
  - split; [| now repeat split].
    split; [| assumption].
    cbn [isolatedSpaces]. split; [| assumption]. intros _. now split.
  - assert (Hcons : isolatedSpaces (c :: replaceRuns false r)).
    { cbn [isolatedSpaces]. split; [congruence | assumption]. }
    cbn [List.filter headIsWhiteSpace]. rewrite Hc. cbn [negb].
    split; [split; [exact Hcons | now f_equal] |].
    split; [exact Hcons |]. split; [reflexivity | now f_equal].
Qed.

Lemma replaceRuns_isolated (s : jsstring) :
  isolatedSpaces s -> replaceRuns false s = s.
Proof.
  induction s as [|c r IH]; [reflexivity |].
  cbn [isolatedSpaces replaceRuns]. intros [Hws Hrest].
  destruct (isWhiteSpace c) eqn:Hc.
  - destruct (Hws eq_refl) as [-> Hhead].
    rewrite replaceRuns_true_head by assumption. now rewrite IH.
  - now rewrite IH.
Qed.

(** X4. Collapsing white space never drops or changes a character that is
    not white space; in its result every white space character is a single
    space that is not followed by white space; and collapsing twice is the
    same as collapsing once. *)
Theorem replaceWhitespace_normal_form (s : jsstring) :
  nonWhitespace (replaceWhitespace s) = nonWhitespace s
  /\ isolatedSpaces (replaceWhitespace s)
  /\ replaceWhitespace (replaceWhitespace s) = replaceWhitespace s
  /\ (isolatedSpaces s -> replaceWhitespace s = s).
Proof.
  unfold replaceWhitespace.
  destruct (replaceRuns_shape s) as [[Hiso Hkeep] _].
  split; [exact Hkeep |]. split; [exact Hiso |].
  split; [now apply replaceRuns_isolated | apply replaceRuns_isolated].
Qed.

(** ** What the walk does to the state *)

Section StateFacts.
Context `{Host}.

Lemma visitChild_snd previousSibling (c : Node) nextSibling acc st :
  snd (visitChild process previousSibling c nextSibling (acc, st))
  = if isElement c then process c st else st.
Proof.
  destruct c as [el cs | pe tc | data]; cbn [visitChild isElement].
  - destruct (elemToVarNames (process (Element el cs) st) !! ref el)
      as [name|]; [destruct (falsy name) |]; reflexivity.
  - destruct (textLiteral previousSibling nextSibling pe tc); reflexivity.
  - reflexivity.
Qed.

(** A relation between the state before and after a step that holds for
    binding a name and for pushing lines holds for [process] and for the loop
    over the top-level elements. *)
Section Frame.
Variable R : CompileState -> CompileState -> Prop.
Hypothesis R_refl : forall st, R st st.
Hypothesis R_trans : forall a b c, R a b -> R b c -> R a c.
Hypothesis R_bind : forall el st, R st (snd (makeOrGetVarName el st)).
Hypothesis R_push : forall ls st, R st (pushLines ls st).

Lemma walkChildNodes_frame (childNodes : list Node) :
  Forall (fun c => forall st, R st (process c st)) childNodes ->
  forall previousSibling lastNextSibling acc st,
    R st (snd (walkChildNodes process previousSibling childNodes
                 lastNextSibling (acc, st))).
Proof.
  induction 1 as [|c rest Hc _ IH];
    intros previousSibling lastNextSibling acc st; [apply R_refl |].
  cbn [walkChildNodes].
  set (nextSibling :=
         match rest with n :: _ => Some n | [] => lastNextSibling end).
  pose proof (visitChild_snd previousSibling c nextSibling acc st) as Hsnd.
  destruct (visitChild process previousSibling c nextSibling (acc, st))
    as [acc' st']. cbn [snd] in Hsnd. subst st'.
  eapply R_trans; [| apply IH].
  destruct (isElement c); [apply Hc | apply R_refl].
Qed.

Lemma process_frame (n : Node) (st : CompileState) : R st (process n st).
Proof.
  revert st. induction n as [el childNodes IH | |] using Node_nested_ind;
    intros st; [| apply R_refl ..].
  rewrite process_Element.
  pose proof (R_bind (ref el) st) as Hbind.
  destruct (makeOrGetVarName (ref el) st) as [varName st1]. cbn [snd] in Hbind.
  cbv zeta. set (st2 := pushLines _ st1).
  pose proof (walkChildNodes_frame childNodes IH None None [] st2) as Hwalk.
  destruct (walkChildNodes process None childNodes None ([], st2))
    as [childNodesToAppend st3]. cbn [snd] in Hwalk.
  eapply R_trans; [exact Hbind |].
  eapply R_trans; [apply R_push |].
  eapply R_trans; [exact Hwalk | apply R_push].
Qed.

Lemma pushLine_pushLines (l : jsstring) (st : CompileState) :
  pushLine l st = pushLines [l] st.
Proof. reflexivity. Qed.

Lemma compileTopLevel_frame (fragmentVarName : jsstring) (st : CompileState)
    (topLevelEl : Node) :
  R st (compileTopLevel fragmentVarName st topLevelEl).
Proof.
  unfold compileTopLevel.
  destruct topLevelEl as [el cs | |]; [| apply process_frame ..].
  pose proof (R_bind (ref el) (process (Element el cs) st)) as Hbind.
  destruct (makeOrGetVarName (ref el) (process (Element el cs) st))
    as [name st1]. cbn [snd] in Hbind.
  eapply R_trans; [apply process_frame |].
  eapply R_trans; [exact Hbind |].
  rewrite pushLine_pushLines. apply R_push.
Qed.

Lemma fold_compileTopLevel_frame (fragmentVarName : jsstring)
    (topLevelEls : list Node) (st : CompileState) :
  R st (fold_left (compileTopLevel fragmentVarName) topLevelEls st).
Proof.
  revert st. induction topLevelEls as [|e rest IH]; intros st; [apply R_refl |].
  cbn [fold_left]. eapply R_trans; [apply compileTopLevel_frame | apply IH].
Qed.
End Frame.

(** X5. No step of the compilation removes or changes a statement that was
    already emitted: [process] only appends to [lines].  The body of a
    compiled template therefore starts with the statement that creates the
    fragment as [v0] and ends with [return v0;]; for a template without
    element children these two statements are the whole body. *)
Theorem function_body_frame (tmpEl : TemplateElement) :
  (forall node st, exists emitted,
      lines (process node st) = lines st ++ emitted)
  /\ (exists middle,
        lines (compileBody tmpEl)
        = lit "const v0 = dom.document().createDocumentFragment();"
          :: middle ++ [lit "return v0;"])
  /\ (children (content tmpEl) = [] ->
      lines (compileBody tmpEl)
      = [lit "const v0 = dom.document().createDocumentFragment();";
         lit "return v0;"]).
Proof.
  set (R := fun a b : CompileState => exists emitted, lines b = lines a ++ emitted).
  assert (Hrefl : forall st, R st st).
  { intros st. exists []. now rewrite app_nil_r. }
  assert (Htrans : forall a b c, R a b -> R b c -> R a c).
  { intros a b c [x Hx] [y Hy]. exists (x ++ y).
    now rewrite Hy, Hx, <- app_assoc. }
  assert (Hbind : forall el st, R st (snd (makeOrGetVarName el st))).
  { intros el st. exists []. now rewrite app_nil_r. }
  assert (Hpush : forall ls st, R st (pushLines ls st)).
  { intros ls st. now exists ls. }
  split; [intros node st; now apply (process_frame R) |].
  unfold compileBody.
  rewrite (makeOrGetVarName_fresh (tmplRef tmpEl)
             {| elemToVarNames := ∅; lines := [] |} (lookup_empty _)).
  cbn [elemToVarNames lines]. rewrite map_size_empty.
  change (nthVarName 0) with (lit "v0").
  set (st1 := pushLine (lit "const " ++ _) _).
  split.
  - destruct (fold_compileTopLevel_frame R Hrefl Htrans Hbind Hpush (lit "v0")
                (children (content tmpEl)) st1) as [middle Hmiddle].
    exists middle. cbn [pushLine lines]. rewrite Hmiddle. reflexivity.
  - intros ->. reflexivity.
Qed.

(** ** The nodes that get a variable *)

Set Warnings "-clear-no-such-hyp".

Lemma elementRefs_not_element (c : Node) :
  isElement c = false -> elementRefs c = ∅.
Proof. destruct c; [discriminate | reflexivity ..]. Qed.

Lemma walkChildNodes_dom (childNodes : list Node) :
  Forall (fun c => forall st,
            dom (elemToVarNames (process c st))
            = dom (elemToVarNames st) ∪ elementRefs c) childNodes ->
  forall previousSibling lastNextSibling acc st,
    dom (elemToVarNames
           (snd (walkChildNodes process previousSibling childNodes
                   lastNextSibling (acc, st))))
    = dom (elemToVarNames st) ∪ ⋃ (map elementRefs childNodes).
Proof.
  induction 1 as [|c rest Hc _ IH];
    intros previousSibling lastNextSibling acc st.
  - cbn. set_solver.
  - cbn [walkChildNodes].
    set (nextSibling :=
           match rest with n :: _ => Some n | [] => lastNextSibling end).
    pose proof (visitChild_snd previousSibling c nextSibling acc st) as Hsnd.
    destruct (visitChild process previousSibling c nextSibling (acc, st))
      as [acc' st']. cbn [snd] in Hsnd. subst st'.
    rewrite IH. cbn [map union_list].
    destruct (isElement c) eqn:Hel.
    + rewrite Hc. set_solver.
    + rewrite (elementRefs_not_element c Hel). set_solver.
Qed.

Lemma process_dom (n : Node) (st : CompileState) :
  dom (elemToVarNames (process n st))
  = dom (elemToVarNames st) ∪ elementRefs n.
Proof.
  revert st. induction n as [el childNodes IH | |] using Node_nested_ind;
    intros st; [| cbn; set_solver ..].
  rewrite process_Element. unfold makeOrGetVarName. cbv beta iota zeta.
  set (varName := match elemToVarNames st !! ref el with
                  | Some name => _ | None => _ end).
  set (st2 := pushLines _ _).
  pose proof (walkChildNodes_dom childNodes IH None None [] st2) as Hwalk.
  destruct (walkChildNodes process None childNodes None ([], st2))
    as [childNodesToAppend st3]. cbn [snd] in Hwalk.
  cbn [pushLines elemToVarNames]. rewrite Hwalk.
  subst st2. cbn [pushLines elemToVarNames elementRefs].
  rewrite dom_insert_L. set_solver.
Qed.

Lemma compileTopLevel_dom (fragmentVarName : jsstring) (st : CompileState)
    (topLevelEl : Node) :
  dom (elemToVarNames (compileTopLevel fragmentVarName st topLevelEl))
  = dom (elemToVarNames st) ∪ elementRefs topLevelEl.
Proof.
  unfold compileTopLevel.
  destruct topLevelEl as [el cs | |]; [| apply process_dom ..].
  unfold makeOrGetVarName. cbn [pushLine elemToVarNames].
  rewrite dom_insert_L, process_dom. cbn [elementRefs]. set_solver.
Qed.

Lemma fold_compileTopLevel_dom (fragmentVarName : jsstring)
    (nodes : list Node) (st : CompileState) :
  dom (elemToVarNames
         (fold_left (compileTopLevel fragmentVarName) (children nodes) st))
  = dom (elemToVarNames st) ∪ ⋃ (map elementRefs nodes).
Proof.
  revert st. induction nodes as [|n nodes IH]; intros st; [cbn; set_solver |].
  unfold children in *. cbn [List.filter map union_list].
  destruct (isElement n) eqn:Hel.
  - cbn [fold_left]. rewrite IH, compileTopLevel_dom. set_solver.
  - rewrite IH, (elementRefs_not_element n Hel). set_solver.
Qed.

(** X6. [process] binds exactly the elements of the subtree it is applied
    to, in addition to what was bound before; after the compilation of a
    template the table binds the template itself and the elements below its
    content, nested ones included, and nothing else: no text node and no
    comment gets a variable. *)
Theorem bound_nodes_are_the_elements (tmpEl : TemplateElement) :
  (forall node st,
      dom (elemToVarNames (process node st))
      = dom (elemToVarNames st) ∪ elementRefs node)
  /\ dom (elemToVarNames (compileBody tmpEl))
     = {[tmplRef tmpEl]} ∪ ⋃ (map elementRefs (content tmpEl)).
Proof.
  split; [exact process_dom |].
  unfold compileBody, makeOrGetVarName. cbn [pushLine elemToVarNames].
  rewrite fold_compileTopLevel_dom. cbn [pushLine elemToVarNames].
  rewrite dom_insert_L, dom_empty_L. set_solver.
Qed.

(** X7. For a table that satisfies the invariant, every element child adds
    exactly one entry to the append list of its parent: the name that the
    child's own creation statement declares.  The test of line 129 never
    fails. *)
Theorem element_child_is_appended
    (previousSibling nextSibling : option Node)
    (el : ElementProps) (childNodes : list Node)
    (childNodesToAppend : list jsstring) (st : CompileState) :
  tableInvariant (elemToVarNames st) ->
  let childVarName := fst (makeOrGetVarName (ref el) st) in
  visitChild process previousSibling (Element el childNodes) nextSibling
    (childNodesToAppend, st)
  = (childNodesToAppend ++ [childVarName], process (Element el childNodes) st)
  /\ childVarName <> []
  /\ elemToVarNames (process (Element el childNodes) st) !! ref el
     = Some childVarName.
Proof.
  intros Hinv childVarName.
  destruct (makeOrGetVarName_spec (ref el) st Hinv)
    as (Hinv1 & _ & Hbound & _).
  fold childVarName in Hbound.
  assert (Hkept : elemToVarNames (process (Element el childNodes) st) !! ref el
                  = Some childVarName).
  { rewrite process_Element. subst childVarName.
    destruct (makeOrGetVarName (ref el) st) as [varName st1].
    cbn [fst snd] in *. cbv zeta.
    set (st2 := pushLines _ st1).
    assert (Hchildren : Forall (fun c => keepsTable (process c)) childNodes).
    { apply List.Forall_forall. intros c _. apply process_keepsTable. }
    destruct (walkChildNodes_keepsTable childNodes Hchildren None None [] st2
                Hinv1) as [_ Hsub].
    destruct (walkChildNodes process None childNodes None ([], st2))
      as [entries st3]. cbn [snd pushLines elemToVarNames] in *.
    eapply lookup_weaken; [exact Hbound | exact Hsub]. }
  assert (Htruthy : falsy childVarName = false).
  { destruct (process_keepsTable (Element el childNodes) st Hinv)
      as [[Hnames _] _].
    destruct (Hnames _ _ Hkept) as (i & _ & ->). apply nthVarName_truthy. }
  split; [| split; [now apply falsy_false | exact Hkept]].
  cbn [visitChild]. now rewrite Hkept, Htruthy.
Qed.

End StateFacts.

(** ** Children that are not elements *)

Section ChildFacts.
Context `{Host}.

Lemma textLiteral_without_element_before previousSibling nextSibling
    parentElement textContent :
  siblingElement previousSibling = None ->
  textLiteral previousSibling nextSibling parentElement textContent
  = textLiteral None None parentElement textContent.
Proof.
  intros Hprev. unfold textLiteral, allowJustWhitespace. now rewrite Hprev.
Qed.

Lemma walkChildNodes_without_elements (nodes : list Node) :
  Forall (fun c => isElement c = false) nodes ->
  forall previousSibling lastNextSibling acc st,
    siblingElement previousSibling = None ->
    walkChildNodes process previousSibling nodes lastNextSibling (acc, st)
    = (acc ++ textLiteralsOf nodes, st).
Proof.
  induction 1 as [|c rest Hc _ IH];
    intros previousSibling lastNextSibling acc st Hprev.
  - cbn. now rewrite app_nil_r.
  - cbn [walkChildNodes].
    assert (Hnext : siblingElement (Some c) = None).
    { destruct c; [discriminate | reflexivity ..]. }
    destruct c as [el cs | pe tc | data]; [discriminate | |];
      cbn [visitChild textLiteralsOf].
    + rewrite textLiteral_without_element_before by assumption.
      destruct (textLiteral None None pe tc) as [l|].
      * rewrite IH by assumption. now rewrite <- app_assoc.
      * now apply IH.
    + now apply IH.
Qed.

(** X8. For an element without element children, the append list is made of
    the literals of its text children that have non-whitespace content, in
    order: white space between text nodes and comments is never kept.  Its
    statements are the creation statement, the attribute statements and, when
    there is such a text, one append statement; no other node is bound. *)
Theorem element_without_element_children
    (el : ElementProps) (childNodes : list Node) (st : CompileState) :
  Forall (fun c => isElement c = false) childNodes ->
  let varName := fst (makeOrGetVarName (ref el) st) in
  lines (process (Element el childNodes) st)
  = lines st
    ++ createStatement varName el :: setAttributeStatements varName el
    ++ appendStatement varName (textLiteralsOf childNodes)
  /\ elemToVarNames (process (Element el childNodes) st)
     = elemToVarNames (snd (makeOrGetVarName (ref el) st))
  /\ (forall parentElement textContent,
        is_Some (textLiteral None None parentElement textContent)
        <-> parentElement <> None /\ textContent <> []
            /\ hasNonWhitespace textContent).
Proof.
  intros Hleaf varName. split; [| split].
  - rewrite process_Element. subst varName.
    pose proof (makeOrGetVarName_lines (ref el) st) as Hlines.
    destruct (makeOrGetVarName (ref el) st) as [varName st1].
    cbn [fst snd] in *. cbv zeta.
    rewrite walkChildNodes_without_elements by (assumption || reflexivity).
    cbn [app pushLines lines]. rewrite Hlines.
    now rewrite <- app_assoc.
  - rewrite process_Element.
    destruct (makeOrGetVarName (ref el) st) as [name st1].
    cbn [fst snd]. cbv zeta.
    now rewrite walkChildNodes_without_elements by (assumption || reflexivity).
  - intros parentElement textContent. rewrite textLiteral_is_Some.
    unfold flankedBySpan. split.
    + intros (Hp & Ht & [Hnon | (a & ca & b & cb & Hnone & _)]);
        [tauto | discriminate].
    + tauto.
Qed.

Lemma visitChild_not_text_prev p1 p2 (c : Node) nextSibling acc :
  notText (Some c) ->
  visitChild process p1 c nextSibling acc
  = visitChild process p2 c nextSibling acc.
Proof. destruct c; [reflexivity | intros [] | reflexivity]. Qed.

Lemma visitChild_not_text_next previousSibling (c : Node) n1 n2 acc :
  notText (Some c) ->
  visitChild process previousSibling c n1 acc
  = visitChild process previousSibling c n2 acc.
Proof. destruct c; [reflexivity | intros [] | reflexivity]. Qed.

Lemma walkChildNodes_first_sibling p1 p2 (nodes : list Node) lastNextSibling acc :
  notText (head nodes) ->
  walkChildNodes process p1 nodes lastNextSibling acc
  = walkChildNodes process p2 nodes lastNextSibling acc.
Proof.
  destruct nodes as [|c rest]; [reflexivity |]. cbn [head walkChildNodes].
  intros Hc. now rewrite (visitChild_not_text_prev p1 p2).
Qed.

Lemma walkChildNodes_last_sibling previousSibling (nodes : list Node) n1 n2 acc :
  notText (last nodes) ->
  walkChildNodes process previousSibling nodes n1 acc
  = walkChildNodes process previousSibling nodes n2 acc.
Proof.
  revert previousSibling acc.
  induction nodes as [|c rest IH]; intros previousSibling acc Hlast;
    [reflexivity |].
  cbn [walkChildNodes]. destruct rest as [|d rest].
  - cbn [walkChildNodes]. now apply visitChild_not_text_next.
  - apply IH. exact Hlast.
Qed.

(** X9. A comment among the child nodes adds no statement and no entry, and
    when the nodes directly before and after it are not text nodes, the
    statements and the append list are the same as without the comment.
    (Next to a text node a comment does matter: it is the sibling that the
    white space test looks at.) *)
Theorem comment_elision
    (previousSibling : option Node) (before : list Node) (data : jsstring)
    (after : list Node) (lastNextSibling : option Node)
    (acc : list jsstring * CompileState) :
  notText (last before) -> notText (head after) ->
  walkChildNodes process previousSibling (before ++ Comment data :: after)
    lastNextSibling acc
  = walkChildNodes process previousSibling (before ++ after) lastNextSibling acc.
Proof.
  intros Hbefore Hafter. rewrite !walkChildNodes_app.
  cbn [walkChildNodes siblingAfter].
  rewrite (walkChildNodes_last_sibling previousSibling before
             (Some (Comment data)) (siblingAfter after lastNextSibling))
    by assumption.
  destruct (walkChildNodes process previousSibling before
              (siblingAfter after lastNextSibling) acc) as [entries st].
  cbn [visitChild].
  now apply walkChildNodes_first_sibling.
Qed.

(** ** The attribute statements of an element *)

(** X10. For an element whose attribute names are pairwise distinct, the
    statements that follow its creation statement are one set-attribute
    statement per attribute other than [class], in declaration order, each
    with the attribute's own name and value. *)
Theorem attribute_statements_in_order
    (el : ElementProps) (childNodes : list Node) (st : CompileState)
    (attrs : list (jsstring * jsstring)) :
  attributes el = Some attrs ->
  NoDup (map fst attrs) ->
  let varName := fst (makeOrGetVarName (ref el) st) in
  exists emittedLater,
    lines (process (Element el childNodes) st)
    = lines st
      ++ createStatement varName el
      :: map (fun a => setAttributeStatement varName (fst a) (snd a))
             (List.filter (fun a => negb (eqb (fst a) (lit "class"))) attrs)
      ++ emittedLater.
Proof.
  intros Hattrs Hnd varName.
  rewrite <- (setAttributeStatements_in_order varName el attrs Hattrs Hnd).
  rewrite process_Element. subst varName.
  pose proof (makeOrGetVarName_lines (ref el) st) as Hlines.
  destruct (makeOrGetVarName (ref el) st) as [varName st1].
  cbn [fst snd] in *. cbv zeta.
  set (st2 := pushLines _ st1).
  assert (Hwalk : exists emitted,
             lines (snd (walkChildNodes process None childNodes None ([], st2)))
             = lines st2 ++ emitted).
  { apply (walkChildNodes_frame
             (fun a b => exists emitted, lines b = lines a ++ emitted)).
    - intros s0. exists []. now rewrite app_nil_r.
    - intros a b c [x Hx] [y Hy]. exists (x ++ y).
      now rewrite Hy, Hx, <- app_assoc.
    - apply List.Forall_forall. intros c _ s0.
      apply (process_frame
               (fun a b => exists emitted, lines b = lines a ++ emitted)).
      + intros s1. exists []. now rewrite app_nil_r.
      + intros a b c0 [x Hx] [y Hy]. exists (x ++ y).
        now rewrite Hy, Hx, <- app_assoc.
      + intros k s1. exists []. now rewrite app_nil_r.
      + intros ls s1. now exists ls. }
  destruct Hwalk as [emitted Hemitted].
  destruct (walkChildNodes process None childNodes None ([], st2))
    as [entries st3]. cbn [snd] in Hemitted.
  exists (emitted ++ appendStatement varName entries).
  cbn [pushLines lines]. rewrite Hemitted. subst st2.
  cbn [pushLines lines]. rewrite Hlines.
  rewrite <- !app_assoc. reflexivity.
Qed.

(** X11. When the variable name holds no quote and no attribute name or
    value of the element holds a single quote, a backslash or a line break,
    every set-attribute statement of the element is closed: the unescaped
    interpolation of line 80 is harmless for such attributes. *)
Theorem attribute_statements_closed
    (varName : jsstring) (el : ElementProps)
    (attrs : list (jsstring * jsstring)) :
  attributes el = Some attrs ->
  quoteFree varName ->
  Forall (fun a => plainInSingleQuotes (fst a) /\ plainInSingleQuotes (snd a))
         attrs ->
  Forall (fun statement => literalsClosed None statement = true)
         (setAttributeStatements varName el).
Proof.
  intros Hattrs Hvar Hplain.
  unfold setAttributeStatements, attributeNamesToSet. rewrite Hattrs.
  change (default [] (Some attrs)) with attrs.
  apply List.Forall_forall. intros statement Hin.
  apply in_map_iff in Hin as (attr & <- & Hattr).
  apply List.filter_In in Hattr as [Hattr _].
  unfold getAttributeNames in Hattr.
  apply in_map_iff in Hattr as ([n v] & <- & Hnv). cbn [fst].
  rewrite List.Forall_forall in Hplain.
  apply setAttributeStatement_closed; [assumption | apply (Hplain _ Hnv) |].
  clear Hnv v Hattrs. induction attrs as [|[n' v'] attrs IH].
  - cbn [getAttribute]. change (lit "null") with [110; 117; 108; 108].
    repeat (constructor; [repeat split; discriminate |]). constructor.
  - cbn [getAttribute]. destruct (eqb n' n).
    + apply (proj2 (Hplain (n', v') (or_introl eq_refl))).
    + apply IH. intros a Ha. apply Hplain. now right.
Qed.

End ChildFacts.

(** ** Names that are asked for twice *)

Lemma makeOrGetVarName_truthy (el : nat) (st : CompileState) :
  falsy (fst (makeOrGetVarName el st)) = false.
Proof.
  unfold makeOrGetVarName. cbn [fst].
  destruct (elemToVarNames st !! el) as [name|]; [| apply nthVarName_truthy].
  destruct (falsy name) eqn:Hname; [apply nthVarName_truthy | exact Hname].
Qed.

(** X12. Asking for the name of a node a second time returns the name of
    the first time and leaves the table and the statements as they are, for
    every table; the name is never empty.  Only the first request for a node
    can take a new name. *)
Theorem makeOrGetVarName_idempotent (el : nat) (st : CompileState) :
  makeOrGetVarName el (snd (makeOrGetVarName el st)) = makeOrGetVarName el st
  /\ fst (makeOrGetVarName el st) <> []
  /\ (forall other,
        other <> el ->
        elemToVarNames (snd (makeOrGetVarName el st)) !! other
        = elemToVarNames st !! other).
Proof.
  split; [| split].
  - pose proof (makeOrGetVarName_truthy el st) as Htruthy.
    unfold makeOrGetVarName in *. cbn [fst snd elemToVarNames lines] in *.
    set (varName := match elemToVarNames st !! el with
                    | Some name => _
                    | None => _
                    end) in *.
    rewrite lookup_insert_eq, Htruthy, insert_insert_eq. reflexivity.
  - apply falsy_false, makeOrGetVarName_truthy.
  - intros other Hother. unfold makeOrGetVarName.
    cbn [snd elemToVarNames]. now rewrite lookup_insert_ne.
Qed.

Section TopLevel.
Context `{Host}.

Lemma process_binds_element (el : ElementProps) (childNodes : list Node)
    (st : CompileState) :
  tableInvariant (elemToVarNames st) ->
  tableInvariant (elemToVarNames (process (Element el childNodes) st))
  /\ elemToVarNames (process (Element el childNodes) st) !! ref el
     = Some (fst (makeOrGetVarName (ref el) st)).
Proof.
  intros Hinv.
  destruct (process_keepsTable (Element el childNodes) st Hinv) as [Hinv' _].
  split; [exact Hinv' |].
  destruct (makeOrGetVarName_spec (ref el) st Hinv)
    as (Hinv1 & _ & Hbound & _).
  rewrite process_Element.
  destruct (makeOrGetVarName (ref el) st) as [varName st1].
  cbn [fst snd] in *. cbv zeta.
  set (st2 := pushLines _ st1).
  assert (Hchildren : Forall (fun c => keepsTable (process c)) childNodes).
  { apply List.Forall_forall. intros c _. apply process_keepsTable. }
  destruct (walkChildNodes_keepsTable childNodes Hchildren None None [] st2
              Hinv1) as [_ Hsub].
  destruct (walkChildNodes process None childNodes None ([], st2))
    as [entries st3]. cbn [snd pushLines elemToVarNames] in *.
  eapply lookup_weaken; [exact Hbound | exact Hsub].
Qed.

(** X13. For a table that satisfies the invariant, the statements of a
    top-level element of a template are the statements of [process] for this
    element followed by one statement that appends it to the fragment, under
    the name that its own creation statement declares; the second request
    for the name changes nothing.  A top-level node that is not an element
    is not among [content.children] and, were it passed, would emit
    nothing. *)
Theorem top_level_element_is_appended
    (fragmentVarName : jsstring) (el : ElementProps) (childNodes : list Node)
    (st : CompileState) :
  tableInvariant (elemToVarNames st) ->
  let name := fst (makeOrGetVarName (ref el) st) in
  compileTopLevel fragmentVarName st (Element el childNodes)
  = pushLine (fragmentVarName ++ lit ".append(" ++ name ++ lit ");")
             (process (Element el childNodes) st)
  /\ (forall nodes, Forall (fun c => isElement c = true) (children nodes))
  /\ (forall node, isElement node = false ->
        compileTopLevel fragmentVarName st node = st).
Proof.
  intros Hinv name. split; [| split].
  - destruct (process_binds_element el childNodes st Hinv) as [Hinv' Hbound].
    unfold compileTopLevel. cbv zeta.
    now rewrite (makeOrGetVarName_bound (ref el) _ name Hinv' Hbound).
  - intros nodes. unfold children. apply List.Forall_forall. intros c Hc.
    now apply List.filter_In in Hc as [_ Hc].
  - intros [el' cs | pe tc | data] Hnode; [discriminate | reflexivity ..].
Qed.

End TopLevel.

(** * Instances of the further properties *)

(** The lines of a function with two statements. *)
Lemma createFunctionCode_lines_here :
  splitLF (createFunctionCode (lit "createAComponent")
             [lit "const v0 = 1;"; lit "return v0;"] [lit "dom"])
  = [lit "function createAComponent(dom) {"; lit "  const v0 = 1;";
     lit "  return v0;"; lit "}"].
Proof.
  rewrite createFunctionCode_lines.
  - vm_compute. reflexivity.
  - now apply noLF_lit_decide.
  - repeat (apply List.Forall_cons; [now apply noLF_lit_decide |]).
    apply List.Forall_nil.
  - repeat (apply List.Forall_cons; [now apply noLF_lit_decide |]).
    apply List.Forall_nil.
Defined.

(** A [div] as first child in the empty table is appended as [v0]. *)
Lemma element_child_is_appended_here :
  visitChild process None (Element plainDiv []) None ([], start)
  = ([lit "v0"], process (Element plainDiv []) start).
Proof.
  exact (proj1 (@element_child_is_appended host None None plainDiv [] [] start
                  tableInvariant_empty)).
Defined.

(** The statements of the anchor: its white space text and its comment leave
    no trace. *)
Lemma anchor_statements :
  lines (process (Element anchor anchorChildNodes) start)
  = [lit "const v0 = dom.createElement(" ++ quoted "a" ++ lit ","
     ++ quoted "x" ++ lit ");";
     lit "v0.setAttribute('href', '#top');";
     lit "v0.setAttribute('title', 'up');";
     lit "v0.append(" ++ quoted "up" ++ lit ");"].
Proof.
  rewrite (proj1 (@element_without_element_children host anchor
                    anchorChildNodes start
                    ltac:(repeat constructor))).
  vm_compute. reflexivity.
Defined.

(** A comment between two [span] elements. *)
Lemma comment_between_spans :
  walkChildNodes process None
    ([span 2 "A"] ++ Comment (lit "c") :: [span 3 "B"]) None ([], start)
  = walkChildNodes process None ([span 2 "A"] ++ [span 3 "B"]) None
      ([], start).
Proof.
  apply (@comment_elision host None [span 2 "A"] (lit "c") [span 3 "B"] None
           ([], start)); exact I.
Defined.

(** The attribute statements of the anchor follow its creation statement. *)
Lemma anchor_attribute_statements :
  exists emittedLater,
    lines (process (Element anchor anchorChildNodes) start)
    = [] ++ createStatement (lit "v0") anchor
      :: [lit "v0.setAttribute('href', '#top');";
          lit "v0.setAttribute('title', 'up');"]
      ++ emittedLater.
Proof.
  assert (Hnd : NoDup [lit "class"; lit "href"; lit "title"]).
  { apply (bool_decide_unpack
             (NoDup [lit "class"; lit "href"; lit "title"])).
    vm_compute. exact I. }
  exact (@attribute_statements_in_order host anchor anchorChildNodes start
           _ eq_refl Hnd).
Defined.

(** The attribute statements of the anchor are closed. *)
Lemma anchor_attribute_statements_closed :
  Forall (fun statement => literalsClosed None statement = true)
         (setAttributeStatements (lit "v0") anchor).
Proof.
  apply (attribute_statements_closed (lit "v0") anchor _ eq_refl).
  - apply List.Forall_forall. intros c Hc. vm_compute in Hc.
    repeat (destruct Hc as [<- | Hc]; [split; discriminate |]). destruct Hc.
  - repeat (apply List.Forall_cons || apply List.Forall_nil);
      (split; apply List.Forall_forall; intros c Hc; vm_compute in Hc;
       repeat (destruct Hc as [<- | Hc]; [repeat split; discriminate |]);
       destruct Hc).
Defined.

(** The [div] of the template [a] is appended to the fragment as [v1]. *)
Lemma top_level_div_is_appended :
  compileTopLevel (lit "v0")
    (snd (makeOrGetVarName 0%nat start)) (div 1 "A")
  = pushLine (lit "v0.append(v1);")
      (process (div 1 "A") (snd (makeOrGetVarName 0%nat start))).
Proof.
  apply (@top_level_element_is_appended host (lit "v0")).
  apply (makeOrGetVarName_spec 0%nat start tableInvariant_empty).
Defined.
